(** * Scene life cycle, sprite registry, render pipeline and serial wrapper

    A shallow embedding of [libs/game/scene.ts] (namespace [scene]) and of
    the serial wrapper (namespace [serial]) of pxt-common-packages.

    Conventions of the embedding:
    - a field that the code leaves or sets [undefined] is an [option];
    - a JavaScript [number] that only ever holds integers is a [Z]
      (integers are exact in a [number] below 2^53); the id counter, which
      the code can drive to [NaN], is a [number] below;
    - objects with identity (sprites, images) are references; the sprite
      heap is a total map from references to the sprite's fields;
    - calls into collaborators that are not part of these two files
      (drawing, physics, controller, power management) are recorded, in
      call order, in a trace;
    - dereferencing [undefined] raises a [TypeError]; code that can do so
      returns a [result]. *)

From Stdlib Require Import ZArith List String Ascii Lia Permutation Sorted.
From Stdlib Require Import Strings.Byte DecimalString.
From stdpp Require Import base option list functions gmap strings sorting.

Local Open Scope Z_scope.

(** ** Errors *)

Inductive error : Type :=
| TypeError (what : string).

Inductive result (A : Type) : Type :=
| Ok (a : A)
| Throw (e : error).
Arguments Ok {A} a.
Arguments Throw {A} e.

Definition result_bind {A B} (f : A → result B) (m : result A) : result B :=
  match m with
  | Ok a => f a
  | Throw e => Throw e
  end.

#[global] Instance result_ret : MRet result := λ A a, Ok a.
#[global] Instance result_mbind : MBind result := λ A B f m, result_bind f m.

Definition is_Ok {A} (m : result A) : Prop := ∃ a, m = Ok a.

(** [o.f] on a field [o] that may be [undefined]. *)
Definition deref {A} (what : string) (o : option A) : result A :=
  match o with
  | Some a => Ok a
  | None => Throw (TypeError what)
  end.

(** ** JavaScript numbers that may be [NaN] *)

Inductive number : Type :=
| NaN
| Num (v : Z).

#[global] Instance number_eq_dec : EqDecision number.
Proof. solve_decision. Defined.

(** [ToNumber] on a field that may be [undefined]. *)
Definition toNumber (o : option number) : number :=
  match o with
  | Some n => n
  | None => NaN
  end.

Definition num_add (a b : number) : number :=
  match a, b with
  | Num x, Num y => Num (x + y)
  | _, _ => NaN
  end.

Definition num_sub (a b : number) : number :=
  match a, b with
  | Num x, Num y => Num (x - y)
  | _, _ => NaN
  end.

(** Truthiness of a number: [0] and [NaN] are falsy. *)
Definition truthy (a : number) : bool :=
  match a with
  | Num x => negb (x =? 0)
  | NaN => false
  end.

(** [a || b] on numbers. *)
Definition num_or (a b : number) : number := if truthy a then a else b.

(** [x++]: the value of the expression and the value stored back. *)
Definition postIncrement (x : option number) : number * number :=
  let old := toNumber x in (old, num_add old (Num 1)).

(** [Number.prototype.toString] of the language runtime, on integral
    values: the decimal rendering. *)
Definition toString (v : Z) : string := NilZero.string_of_int (Z.to_int v).

(** * Namespace [scene] *)

Module scene.

(** ** Constants *)

(** [enum Flag { NeedsSorting = 1 << 1 }] *)
Definition NeedsSorting : Z := Z.shiftl 1 1.

(** Frame handler priorities. *)
Definition CONTROLLER_PRIORITY : Z := 8.
Definition UPDATE_CONTROLLER_PRIORITY : Z := 13.
Definition FOLLOW_SPRITE_PRIORITY : Z := 14.
Definition PHYSICS_PRIORITY : Z := 15.
Definition ANIMATION_UPDATE_PRIORITY : Z := 15.
Definition CONTROLLER_SPRITES_PRIORITY : Z := 13.
Definition UPDATE_INTERVAL_PRIORITY : Z := 19.
Definition UPDATE_PRIORITY : Z := 20.
Definition RENDER_BACKGROUND_PRIORITY : Z := 60.
Definition RENDER_SPRITES_PRIORITY : Z := 90.
Definition RENDER_DIAGNOSTICS_PRIORITY : Z := 150.
Definition UPDATE_SCREEN_PRIORITY : Z := 200.

(** Default rendering z indices. *)
Definition ON_PAINT_Z : Z := -20.
Definition TILE_MAP_Z : Z := -1.
Definition SPRITE_Z : Z := 0.
Definition ON_SHADE_Z : Z := 80.
Definition HUD_Z : Z := 100.

(** ** Objects *)

(** A callback value; closures of client code are opaque and named by a
    number. *)
Definition Callback := nat.

Record SpriteHandler : Type := {
  sh_kind : Z;
  sh_handler : Callback
}.

Record OverlapHandler : Type := {
  oh_kind : Z;
  oh_otherKind : Z;
  oh_handler : Callback
}.

Record GameForeverHandler : Type := {
  lock : option bool;
  gfh_handler : Callback
}.

(** Sprites are objects: a reference, and the two fields of [SpriteLike]
    that the scene reads or writes.  An [id] that was never assigned is
    [NaN]: in the comparator of the sort, [undefined] and [NaN] behave
    alike. *)
Definition SpriteRef := nat.

Record SpriteLike : Type := {
  z : Z;
  id : number
}.

Definition SparseArray (T : Type) : Type := gmap Z T.

(** Collaborators of which the scene only holds a reference. *)
Inductive Camera : Type := mkCamera.
Inductive Background : Type := mkBackground (camera : Camera).
Inductive PhysicsEngine : Type := ArcadePhysicsEngine.
Inductive TileMap : Type := mkTileMap.
Inductive SpriteSet : Type := mkSpriteSet (members : list SpriteRef).
Inductive ParticleSource : Type := mkParticleSource.
Inductive ControlledSprite : Type := mkControlledSprite (s : SpriteRef).
Inductive FollowingSprite : Type := mkFollowingSprite (s target : SpriteRef).

(** Calls into collaborators, as they appear in a trace. *)
Inductive Event : Type :=
| PowerPoke
| PowerCheckDeepSleep
| EnablePerfCounter (name : string)
| ControllerUpdate
| ControllerMoveSprites
| PhysicsMove
| CameraUpdate
| SpriteUpdate (s : SpriteRef)
| BackgroundDraw
| SpriteDraw (s : SpriteRef)
| OnStats (msg : string)
| PhysicsDraw
| ConsoleOverlayDraw
| ScreenUpdate
| ExternalHandler (n : nat).

#[global] Instance Event_eq_dec : EqDecision Event.
Proof. solve_decision. Defined.

(** An image is an object (a reference) holding what had been drawn on
    the screen when it was taken. *)
Record Image : Type := {
  img_ref : nat;
  img_pixels : list Event
}.

#[global] Instance Image_eq_dec : EqDecision Image.
Proof. solve_decision. Defined.

Definition is_draw (e : Event) : bool :=
  match e with
  | BackgroundDraw | SpriteDraw _ | PhysicsDraw | ConsoleOverlayDraw => true
  | _ => false
  end.

(** What is on the screen: the draw calls made so far. *)
Definition drawn (t : list Event) : list Event := filter (λ e, is_draw e = true) t.

(** The sprites drawn, in the order of their [__draw] calls. *)
Fixpoint spritesDrawn (t : list Event) : list SpriteRef :=
  match t with
  | [] => []
  | SpriteDraw s :: t' => s :: spritesDrawn t'
  | _ :: t' => spritesDrawn t'
  end.

(** ** The [Scene] class: fields *)

Record Scene : Type := {
  eventContext : option nat;
  background : option Background;
  tileMap : option TileMap;
  allSprites : option (list SpriteRef);
  spriteNextId : option number;
  spritesByKind : option (SparseArray SpriteSet);
  physicsEngine : option PhysicsEngine;
  camera : option Camera;
  flags : option Z;
  destroyedHandlers : option (list SpriteHandler);
  createdHandlers : option (list SpriteHandler);
  overlapHandlers : option (list OverlapHandler);
  overlapMap : option (SparseArray (list Z));
  collisionHandlers : option (list (list SpriteHandler));
  gameForeverHandlers : option (list GameForeverHandler);
  particleSources : option (list ParticleSource);
  controlledSprites : option (list (list ControlledSprite));
  followingSprites : option (list FollowingSprite);
  _millis : Z;
  _data : option (gmap string Z);
  cachedRender : option Image
}.

Definition set_allSprites (v : option (list SpriteRef)) (s : Scene) : Scene :=
  {| eventContext := eventContext s; background := background s;
     tileMap := tileMap s; allSprites := v; spriteNextId := spriteNextId s;
     spritesByKind := spritesByKind s; physicsEngine := physicsEngine s;
     camera := camera s; flags := flags s;
     destroyedHandlers := destroyedHandlers s;
     createdHandlers := createdHandlers s;
     overlapHandlers := overlapHandlers s; overlapMap := overlapMap s;
     collisionHandlers := collisionHandlers s;
     gameForeverHandlers := gameForeverHandlers s;
     particleSources := particleSources s;
     controlledSprites := controlledSprites s;
     followingSprites := followingSprites s;
     _millis := _millis s; _data := _data s; cachedRender := cachedRender s |}.

Definition set_spriteNextId (v : option number) (s : Scene) : Scene :=
  {| eventContext := eventContext s; background := background s;
     tileMap := tileMap s; allSprites := allSprites s; spriteNextId := v;
     spritesByKind := spritesByKind s; physicsEngine := physicsEngine s;
     camera := camera s; flags := flags s;
     destroyedHandlers := destroyedHandlers s;
     createdHandlers := createdHandlers s;
     overlapHandlers := overlapHandlers s; overlapMap := overlapMap s;
     collisionHandlers := collisionHandlers s;
     gameForeverHandlers := gameForeverHandlers s;
     particleSources := particleSources s;
     controlledSprites := controlledSprites s;
     followingSprites := followingSprites s;
     _millis := _millis s; _data := _data s; cachedRender := cachedRender s |}.

Definition set_flags (v : option Z) (s : Scene) : Scene :=
  {| eventContext := eventContext s; background := background s;
     tileMap := tileMap s; allSprites := allSprites s;
     spriteNextId := spriteNextId s;
     spritesByKind := spritesByKind s; physicsEngine := physicsEngine s;
     camera := camera s; flags := v;
     destroyedHandlers := destroyedHandlers s;
     createdHandlers := createdHandlers s;
     overlapHandlers := overlapHandlers s; overlapMap := overlapMap s;
     collisionHandlers := collisionHandlers s;
     gameForeverHandlers := gameForeverHandlers s;
     particleSources := particleSources s;
     controlledSprites := controlledSprites s;
     followingSprites := followingSprites s;
     _millis := _millis s; _data := _data s; cachedRender := cachedRender s |}.

Definition set_millis (v : Z) (s : Scene) : Scene :=
  {| eventContext := eventContext s; background := background s;
     tileMap := tileMap s; allSprites := allSprites s;
     spriteNextId := spriteNextId s;
     spritesByKind := spritesByKind s; physicsEngine := physicsEngine s;
     camera := camera s; flags := flags s;
     destroyedHandlers := destroyedHandlers s;
     createdHandlers := createdHandlers s;
     overlapHandlers := overlapHandlers s; overlapMap := overlapMap s;
     collisionHandlers := collisionHandlers s;
     gameForeverHandlers := gameForeverHandlers s;
     particleSources := particleSources s;
     controlledSprites := controlledSprites s;
     followingSprites := followingSprites s;
     _millis := v; _data := _data s; cachedRender := cachedRender s |}.

Definition set_cachedRender (v : option Image) (s : Scene) : Scene :=
  {| eventContext := eventContext s; background := background s;
     tileMap := tileMap s; allSprites := allSprites s;
     spriteNextId := spriteNextId s;
     spritesByKind := spritesByKind s; physicsEngine := physicsEngine s;
     camera := camera s; flags := flags s;
     destroyedHandlers := destroyedHandlers s;
     createdHandlers := createdHandlers s;
     overlapHandlers := overlapHandlers s; overlapMap := overlapMap s;
     collisionHandlers := collisionHandlers s;
     gameForeverHandlers := gameForeverHandlers s;
     particleSources := particleSources s;
     controlledSprites := controlledSprites s;
     followingSprites := followingSprites s;
     _millis := _millis s; _data := _data s; cachedRender := v |}.

(** ** The event context (frame scheduler) *)

(** The closures that [init] registers, and handlers of other modules. *)
Inductive FrameHandler : Type :=
| ControllerStateHandler
| MoveSpritesHandler
| PhysicsHandler
| RenderSpritesHandler
| DiagnosticsHandler
| ScreenUpdateHandler
| OtherHandler (n : nat).

#[global] Instance FrameHandler_eq_dec : EqDecision FrameHandler.
Proof. solve_decision. Defined.

(** Modelled from the spec: [control.EventContext] is not in the two
    source files.  Section 4.1: the scheduler maintains an ordered registry
    of (priority, callback) pairs; the scene also reads the time that the
    last frame took. *)
Record FrameCallback : Type := {
  order : Z;
  handler : FrameHandler
}.

Record EventContext : Type := {
  deltaTimeMillis : Z;
  frameCallbacks : list FrameCallback
}.

(** Modelled from the spec: [registerFrameHandler] of
    [control.EventContext] is not in the two source files.  Section 4.1: a
    lower priority runs earlier, and ties are broken by registration order
    (first registered runs first); the new callback goes before the first
    callback of a greater priority. *)
Fixpoint insertCallback (fn : FrameCallback) (l : list FrameCallback)
  : list FrameCallback :=
  match l with
  | [] => [fn]
  | c :: l' =>
      if order fn <? order c then fn :: c :: l'
      else c :: insertCallback fn l'
  end.

(** Modelled from the spec: [registerFrameHandler(priority, callback)],
    section 4.1. *)
Definition EventContext_registerFrameHandler
    (p : Z) (h : FrameHandler) (c : EventContext) : EventContext :=
  {| deltaTimeMillis := deltaTimeMillis c;
     frameCallbacks := insertCallback {| order := p; handler := h |}
                                      (frameCallbacks c) |}.

(** ** The world a scene lives in *)

(** [game.stats], [game.debug], [control.EventContext.onStats] (whether a
    listener is set) and [control.EventContext.lastStats]. *)
Record Game : Type := {
  stats : bool;
  debug : bool;
  onStats : bool;
  lastStats : string
}.

Record World : Type := {
  this : Scene;
  contexts : nat → EventContext;
  sprites : SpriteRef → SpriteLike;
  trace : list Event;
  nextImage : nat;
  game : Game
}.

Definition set_this (v : Scene) (w : World) : World :=
  {| this := v; contexts := contexts w; sprites := sprites w;
     trace := trace w; nextImage := nextImage w; game := game w |}.

Definition set_contexts (v : nat → EventContext) (w : World) : World :=
  {| this := this w; contexts := v; sprites := sprites w;
     trace := trace w; nextImage := nextImage w; game := game w |}.

Definition set_sprites (v : SpriteRef → SpriteLike) (w : World) : World :=
  {| this := this w; contexts := contexts w; sprites := v;
     trace := trace w; nextImage := nextImage w; game := game w |}.

Definition set_trace (v : list Event) (w : World) : World :=
  {| this := this w; contexts := contexts w; sprites := sprites w;
     trace := v; nextImage := nextImage w; game := game w |}.

Definition set_nextImage (v : nat) (w : World) : World :=
  {| this := this w; contexts := contexts w; sprites := sprites w;
     trace := trace w; nextImage := v; game := game w |}.

(** Record a call into a collaborator. *)
Definition emit (e : Event) (w : World) : World :=
  set_trace (trace w ++ [e]) w.

Definition emitAll (es : list Event) (w : World) : World :=
  set_trace (trace w ++ es) w.

(** ** [Scene]: constructor, [init], [addSprite], [destroy] *)

(** [new Scene(eventContext)] *)
Definition Scene_new (ec : nat) : Scene :=
  {| eventContext := Some ec;
     flags := Some 0;
     physicsEngine := Some ArcadePhysicsEngine;
     camera := Some mkCamera;
     background := Some (mkBackground mkCamera);
     destroyedHandlers := Some [];
     createdHandlers := Some [];
     overlapHandlers := Some [];
     overlapMap := Some ∅;
     collisionHandlers := Some [];
     gameForeverHandlers := Some [];
     spritesByKind := Some ∅;
     controlledSprites := Some [];
     _data := Some ∅;
     _millis := 0;
     (* not assigned by the constructor *)
     tileMap := None;
     allSprites := None;
     spriteNextId := None;
     particleSources := None;
     followingSprites := None;
     cachedRender := None |}.

(** [this.eventContext.registerFrameHandler(p, h)] *)
Definition registerFrameHandler (p : Z) (h : FrameHandler) (w : World)
  : result World :=
  c ← deref "eventContext" (eventContext (this w));
  mret (set_contexts
          (<[c := EventContext_registerFrameHandler p h (contexts w c)]>
             (contexts w)) w).

(** [Scene.initializers.forEach(f => f(this))] *)
Fixpoint forEach (fs : list (World → result World)) (w : World)
  : result World :=
  match fs with
  | [] => mret w
  | f :: fs' => w' ← f w; forEach fs' w'
  end.

Definition init (initializers : list (World → result World)) (w : World)
  : result World :=
  match allSprites (this w) with
  | Some _ => mret w
  | None =>
      let w := emit PowerPoke w in
      let w := set_this (set_allSprites (Some []) (this w)) w in
      let w := set_this (set_spriteNextId (Some (Num 0)) (this w)) w in
      w ← registerFrameHandler CONTROLLER_PRIORITY ControllerStateHandler w;
      w ← registerFrameHandler CONTROLLER_SPRITES_PRIORITY MoveSpritesHandler w;
      w ← registerFrameHandler PHYSICS_PRIORITY PhysicsHandler w;
      w ← registerFrameHandler RENDER_SPRITES_PRIORITY RenderSpritesHandler w;
      w ← registerFrameHandler RENDER_DIAGNOSTICS_PRIORITY DiagnosticsHandler w;
      w ← registerFrameHandler UPDATE_SCREEN_PRIORITY ScreenUpdateHandler w;
      forEach initializers w
  end.

(** [sprite.id = v] on the sprite object [s]. *)
Definition set_id (s : SpriteRef) (v : number) (w : World) : World :=
  set_sprites (<[s := {| z := z (sprites w s); id := v |}]> (sprites w)) w.

Definition addSprite (sprite : SpriteRef) (w : World) : result World :=
  l ← deref "allSprites" (allSprites (this w));
  let w := set_this (set_allSprites (Some (l ++ [sprite])) (this w)) w in
  let '(old, next) := postIncrement (spriteNextId (this w)) in
  let w := set_this (set_spriteNextId (Some next) (this w)) w in
  mret (set_id sprite old w).

Definition Scene_destroy (s : Scene) : Scene :=
  {| eventContext := None;
     background := None;
     tileMap := None;
     allSprites := None;
     spriteNextId := None;
     spritesByKind := None;
     physicsEngine := None;
     camera := None;
     flags := None;
     destroyedHandlers := None;
     createdHandlers := None;
     overlapHandlers := None;
     collisionHandlers := None;
     gameForeverHandlers := None;
     _data := None;
     (* not assigned by [destroy] *)
     overlapMap := overlapMap s;
     particleSources := particleSources s;
     controlledSprites := controlledSprites s;
     followingSprites := followingSprites s;
     _millis := _millis s;
     cachedRender := cachedRender s |}.

Definition destroy (w : World) : World := set_this (Scene_destroy (this w)) w.

(** ** Rendering, frame handlers and ticks *)

Section Frames.

(** [Array.prototype.sort] belongs to the language runtime; the scene is
    parametric in it.  The comparator returns a [number]. *)
Variable arraySort :
  (SpriteRef → SpriteRef → number) → list SpriteRef → list SpriteRef.

(** [function (a, b) { return a.z - b.z || a.id - b.id; }] *)
Definition compareSprites (h : SpriteRef → SpriteLike) (a b : SpriteRef)
  : number :=
  num_or (Num (z (h a) - z (h b))) (num_sub (id (h a)) (id (h b))).

(** [this.flags & m]: [undefined] converts to 0. *)
Definition flags_and (f : option Z) (m : Z) : Z := Z.land (default 0 f) m.

Definition renderCore (w : World) : result World :=
  let w := emit (EnablePerfCounter "render background") w in
  _ ← deref "background" (background (this w));
  let w := emit BackgroundDraw w in
  let w := emit (EnablePerfCounter "sprite sort") w in
  w ← (if negb (flags_and (flags (this w)) NeedsSorting =? 0) then
         l ← deref "allSprites" (allSprites (this w));
         mret (set_this
                 (set_allSprites
                    (Some (arraySort (compareSprites (sprites w)) l))
                    (this w)) w)
       else mret w);
  let w := emit (EnablePerfCounter "sprite draw") w in
  l ← deref "allSprites" (allSprites (this w));
  mret (emitAll (map SpriteDraw l) w).

(** Modelled from the spec: [screen.clone()] is not in the two source
    files.  Section 4.4: [render] snapshots the resulting frame buffer; the
    snapshot is a new image object. *)
Definition screen_clone (w : World) : Image * World :=
  ({| img_ref := nextImage w; img_pixels := drawn (trace w) |},
   set_nextImage (S (nextImage w)) w).

Definition render (w : World) : result (Image * World) :=
  match cachedRender (this w) with
  | Some img => mret (img, w)
  | None =>
      w ← renderCore w;
      let '(img, w) := screen_clone w in
      let w := set_this (set_cachedRender (Some img) (this w)) w in
      mret (img, w)
  end.

(** The closure registered at [CONTROLLER_PRIORITY]. *)
Definition controllerStateHandler (w : World) : result World :=
  c ← deref "eventContext" (eventContext (this w));
  let w := set_this
             (set_millis (_millis (this w) + deltaTimeMillis (contexts w c))
                (this w)) w in
  let w := emit (EnablePerfCounter "controller_update") w in
  _ ← deref "eventContext" (eventContext (this w));
  mret (emit ControllerUpdate w).

(** The closure registered at [PHYSICS_PRIORITY]. *)
Definition physicsHandler (w : World) : result World :=
  let w := emit (EnablePerfCounter "physics and collisions") w in
  _ ← deref "eventContext" (eventContext (this w));
  _ ← deref "physicsEngine" (physicsEngine (this w));
  let w := emit PhysicsMove w in
  _ ← deref "camera" (camera (this w));
  let w := emit CameraUpdate w in
  l ← deref "allSprites" (allSprites (this w));
  mret (emitAll (map SpriteUpdate l) w).

(** The closure registered at [RENDER_SPRITES_PRIORITY]. *)
Definition renderSpritesHandler (w : World) : result World :=
  let w := emit (EnablePerfCounter "sprite_draw") w in
  let w := set_this (set_cachedRender None (this w)) w in
  renderCore w.

(** The closure registered at [RENDER_DIAGNOSTICS_PRIORITY]. *)
Definition diagnosticsHandler (w : World) : result World :=
  w ← (if stats (game w) && onStats (game w) then
         l ← deref "allSprites" (allSprites (this w));
         mret (emit (OnStats (lastStats (game w) +:+ " sprites:"
                              +:+ toString (Z.of_nat (length l)))) w)
       else mret w);
  w ← (if debug (game w) then
         _ ← deref "physicsEngine" (physicsEngine (this w));
         mret (emit PhysicsDraw w)
       else mret w);
  let w := emit ConsoleOverlayDraw w in
  let w := set_this (set_flags (Some 0) (this w)) w in
  mret (emit PowerCheckDeepSleep w).

Definition runHandler (h : FrameHandler) (w : World) : result World :=
  match h with
  | ControllerStateHandler => controllerStateHandler w
  | MoveSpritesHandler => mret (emit ControllerMoveSprites w)
  | PhysicsHandler => physicsHandler w
  | RenderSpritesHandler => renderSpritesHandler w
  | DiagnosticsHandler => diagnosticsHandler w
  | ScreenUpdateHandler => mret (emit ScreenUpdate w)
  | OtherHandler n => mret (emit (ExternalHandler n) w)
  end.

Fixpoint runCallbacks (cbs : list FrameCallback) (w : World) : result World :=
  match cbs with
  | [] => mret w
  | cb :: cbs' => w' ← runHandler (handler cb) w; runCallbacks cbs' w'
  end.

(** Modelled from the spec: the tick of the event context is not in the
    two source files.  Section 4.1: all handlers registered for a frame
    run synchronously to completion, in the order of the registry, every
    tick. *)
Definition tick (c : nat) (w : World) : result World :=
  runCallbacks (frameCallbacks (contexts w c)) w.

(** ** What happens to a scene during its life *)

(** Besides [addSprite], [render] and ticks, collaborators act on the
    public fields of the scene and of its sprites: they remove a sprite from
    [allSprites], assign a sprite's [z], and mark the scene as needing a
    sort. *)
Inductive Op : Type :=
| OpAddSprite (s : SpriteRef)
| OpRemoveSprite (s : SpriteRef)
| OpSetZ (s : SpriteRef) (v : Z)
| OpNeedsSorting
| OpRender
| OpTick (c : nat).

(** Modelled from the spec: [Array.removeElement] and the removal of a
    sprite are not in the two source files.  Section 4.2: removing a sprite
    is handled by a collaborator; the first occurrence is taken out. *)
Fixpoint removeElement (s : SpriteRef) (l : list SpriteRef) : list SpriteRef :=
  match l with
  | [] => []
  | x :: l' => if Nat.eqb x s then l' else x :: removeElement s l'
  end.

(** [this.allSprites.removeElement(s)] *)
Definition removeSprite (s : SpriteRef) (w : World) : result World :=
  l ← deref "allSprites" (allSprites (this w));
  mret (set_this (set_allSprites (Some (removeElement s l)) (this w)) w).

(** Modelled from the spec: the sprite class is not in the two source
    files.  Section 6: [z] is the render sort key of a sprite; [s.z = v]
    writes it. *)
Definition set_z (s : SpriteRef) (v : Z) (w : World) : World :=
  set_sprites (<[s := {| z := v; id := id (sprites w s) |}]> (sprites w)) w.

(** Modelled from the spec: who requests a sort is not in the two source
    files.  Section 3: [flags] is a bitmask that currently defines
    [NeedsSorting]; [flags |= Flag.NeedsSorting] sets it. *)
Definition needsSorting (w : World) : World :=
  set_this
    (set_flags (Some (Z.lor (default 0 (flags (this w))) NeedsSorting))
       (this w)) w.

Definition step (op : Op) (w : World) : result World :=
  match op with
  | OpAddSprite s => addSprite s w
  | OpRemoveSprite s => removeSprite s w
  | OpSetZ s v => mret (set_z s v w)
  | OpNeedsSorting => mret (needsSorting w)
  | OpRender => '(_, w') ← render w; mret w'
  | OpTick c => tick c w
  end.

(** Run a history; the second component collects, in call order, the id
    that each [addSprite] call left in its sprite. *)
Fixpoint run (ops : list Op) (w : World) : result (World * list number) :=
  match ops with
  | [] => mret (w, [])
  | op :: ops' =>
      w' ← step op w;
      '(w'', ids) ← run ops' w';
      mret (w'',
            match op with
            | OpAddSprite s => id (sprites w' s) :: ids
            | _ => ids
            end)
  end.

End Frames.

(** ** What the scene expects of [Array.prototype.sort] *)

(** [a] may come before [b]: the comparator does not give a positive
    number ([NaN] counts as 0). *)
Definition cmp_le {A} (cmp : A → A → number) (a b : A) : Prop :=
  match cmp a b with
  | Num v => v ≤ 0
  | NaN => True
  end.

(** The comparator is a consistent comparator on the elements of [l]. *)
Definition consistentOn {A} (cmp : A → A → number) (l : list A) : Prop :=
  (∀ a b, a ∈ l → b ∈ l → cmp_le cmp a b ∨ cmp_le cmp b a) ∧
  (∀ a b c, a ∈ l → b ∈ l → c ∈ l →
            cmp_le cmp a b → cmp_le cmp b c → cmp_le cmp a c).

(** The sort rearranges its input, and the result is ordered whenever the
    comparator is consistent on the input. *)
Definition SortContract
    (sort : (SpriteRef → SpriteRef → number) → list SpriteRef → list SpriteRef)
  : Prop :=
  (∀ cmp l, sort cmp l ≡ₚ l) ∧
  (∀ cmp l, consistentOn cmp l → StronglySorted (cmp_le cmp) (sort cmp l)).

(** A stable insertion sort, one sort that meets the contract.  A [NaN]
    from the comparator counts as 0. *)
Definition comesBefore {A} (cmp : A → A → number) (a b : A) : bool :=
  match cmp a b with
  | Num v => v <=? 0
  | NaN => true
  end.

Fixpoint insertSorted {A} (cmp : A → A → number) (x : A) (l : list A)
  : list A :=
  match l with
  | [] => [x]
  | y :: l' =>
      if comesBefore cmp x y then x :: y :: l'
      else y :: insertSorted cmp x l'
  end.

Definition insertionSort {A} (cmp : A → A → number) (l : list A) : list A :=
  foldr (insertSorted cmp) [] l.

(** ** Predicates on scenes *)

(** Ascending [z], ties broken by ascending [id]. *)
Definition zIdLe (h : SpriteRef → SpriteLike) (a b : SpriteRef) : Prop :=
  z (h a) < z (h b) ∨
  (z (h a) = z (h b) ∧
   ∃ i j, id (h a) = Num i ∧ id (h b) = Num j ∧ i ≤ j).

(** The scene has been initialised and not destroyed: every object that
    the frame handlers and [render] go through is there. *)
Definition alive (w : World) : Prop :=
  is_Some (eventContext (this w)) ∧
  is_Some (background (this w)) ∧
  is_Some (physicsEngine (this w)) ∧
  is_Some (camera (this w)) ∧
  is_Some (allSprites (this w)).

(** Image references handed out so far are below [nextImage]. *)
Definition imagesAllocated (w : World) : Prop :=
  ∀ img, cachedRender (this w) = Some img → (img_ref img < nextImage w)%nat.

(** An initializer that leaves the sprite list in place. *)
Definition keepsSprites (f : World → result World) : Prop :=
  ∀ w w', f w = Ok w' →
          is_Some (allSprites (this w)) → is_Some (allSprites (this w')).

(** A world in which [new Scene(ec)] has just run. *)
Definition newWorld (ec : nat) (g : Game) (h : SpriteRef → SpriteLike)
  : World :=
  {| this := Scene_new ec;
     contexts := λ _, {| deltaTimeMillis := 16; frameCallbacks := [] |};
     sprites := h;
     trace := [];
     nextImage := 0;
     game := g |}.

(** The calls that the core draw sequence makes when it draws [l]. *)
Definition coreDraw (l : list SpriteRef) : list Event :=
  [EnablePerfCounter "render background"; BackgroundDraw;
   EnablePerfCounter "sprite sort"; EnablePerfCounter "sprite draw"]
  ++ map SpriteDraw l.

(** The fixed priority table of the specification, without the two
    reserved slots. *)
Definition specPriorities : list Z := [8; 13; 14; 15; 90; 150; 200].

(** The registry is ordered by ascending priority. *)
Definition orderLe (a b : FrameCallback) : Prop := order a ≤ order b.

(** The callbacks that [init] itself registers, in registration order. *)
Definition initCallbacks : list FrameCallback :=
  [ {| order := CONTROLLER_PRIORITY; handler := ControllerStateHandler |};
    {| order := CONTROLLER_SPRITES_PRIORITY; handler := MoveSpritesHandler |};
    {| order := PHYSICS_PRIORITY; handler := PhysicsHandler |};
    {| order := RENDER_SPRITES_PRIORITY; handler := RenderSpritesHandler |};
    {| order := RENDER_DIAGNOSTICS_PRIORITY; handler := DiagnosticsHandler |};
    {| order := UPDATE_SCREEN_PRIORITY; handler := ScreenUpdateHandler |} ].

(** Each of the handlers of [init] makes one call that no other handler
    makes; seeing it in the trace tells that the handler has fired.  The
    call is mapped to the priority of its handler. *)
Definition handlerMark (e : Event) : option Z :=
  match e with
  | ControllerUpdate => Some CONTROLLER_PRIORITY
  | ControllerMoveSprites => Some CONTROLLER_SPRITES_PRIORITY
  | PhysicsMove => Some PHYSICS_PRIORITY
  | BackgroundDraw => Some RENDER_SPRITES_PRIORITY
  | ConsoleOverlayDraw => Some RENDER_DIAGNOSTICS_PRIORITY
  | ScreenUpdate => Some UPDATE_SCREEN_PRIORITY
  | _ => None
  end.

(** The priorities of the handlers that fired, in firing order. *)
Definition fired (t : list Event) : list Z := omap handlerMark t.

(** The priority at which [init] registers a handler of its own. *)
Definition ownPriority (h : FrameHandler) : list Z :=
  match h with
  | ControllerStateHandler => [CONTROLLER_PRIORITY]
  | MoveSpritesHandler => [CONTROLLER_SPRITES_PRIORITY]
  | PhysicsHandler => [PHYSICS_PRIORITY]
  | RenderSpritesHandler => [RENDER_SPRITES_PRIORITY]
  | DiagnosticsHandler => [RENDER_DIAGNOSTICS_PRIORITY]
  | ScreenUpdateHandler => [UPDATE_SCREEN_PRIORITY]
  | OtherHandler _ => []
  end.

(** What the constructor establishes: the collaborators are there, the
    sprite list is not. *)
Definition constructed (w : World) : Prop :=
  is_Some (eventContext (this w)) ∧
  is_Some (background (this w)) ∧
  is_Some (physicsEngine (this w)) ∧
  is_Some (camera (this w)) ∧
  allSprites (this w) = None.

(** The scene is alive and its next id is [n]. *)
Definition counter (n : Z) (w : World) : Prop :=
  alive w ∧ spriteNextId (this w) = Some (Num n).

(** Number of [addSprite] calls in a history. *)
Fixpoint adds (ops : list Op) : nat :=
  match ops with
  | [] => 0%nat
  | OpAddSprite _ :: ops' => S (adds ops')
  | _ :: ops' => adds ops'
  end.

(** The ids [n], [n + 1], ... of [k] calls. *)
Definition idsFrom (n : Z) (k : nat) : list number :=
  map (λ i, Num (n + Z.of_nat i)) (seq 0 k).

(** ** A small game, for examples *)

Definition exampleGame : Game :=
  {| stats := true; debug := false; onStats := true; lastStats := "fps:30" |}.

(** Sprite 1 is in front ([z] is 5), the others are at [z] 0. *)
Definition exampleSprites : SpriteRef → SpriteLike :=
  λ r, {| z := if Nat.eqb r 1 then 5 else 0; id := NaN |}.

Definition exampleWorld : World := newWorld 0 exampleGame exampleSprites.

(** The example world after [init]. *)
Definition exampleInit : World :=
  match init [] exampleWorld with
  | Ok w => w
  | Throw _ => exampleWorld
  end.

(** The example world after [init], two [addSprite] calls (sprite 1 in
    front, then sprite 2), a sort request and one frame. *)
Definition exampleFrame : result (World * list number) :=
  w ← init [] exampleWorld;
  run insertionSort
    [OpAddSprite 1%nat; OpAddSprite 2%nat; OpNeedsSorting; OpTick 0%nat] w.

(** The example world after [init], the same two [addSprite] calls and
    a sort request. *)
Definition exampleMarked : World :=
  match run insertionSort
          [OpAddSprite 1%nat; OpAddSprite 2%nat; OpNeedsSorting]
          exampleInit with
  | Ok (w, _) => w
  | Throw _ => exampleInit
  end.

(** A history: three sprites are added, one is removed, a fourth is
    added, a sort is requested, and two frames run with a [render]
    between them. *)
Definition exampleOps : list Op :=
  [OpAddSprite 1%nat; OpAddSprite 2%nat; OpAddSprite 3%nat;
   OpRemoveSprite 2%nat; OpAddSprite 4%nat; OpNeedsSorting; OpTick 0%nat;
   OpRender; OpTick 0%nat].

(** ** The two getters of [Scene] *)

(** [get data()] *)
Definition data (w : World) : option (gmap string Z) := _data (this w).

(** [millis()]: the elapsed time in the scene. *)
Definition millis (w : World) : Z := _millis (this w).

(** ** More predicates on scenes and traces *)

(** The sprites updated, in the order of their [__update] calls. *)
Fixpoint spritesUpdated (t : list Event) : list SpriteRef :=
  match t with
  | [] => []
  | SpriteUpdate s :: t' => s :: spritesUpdated t'
  | _ :: t' => spritesUpdated t'
  end.

(** The scene is alive, its next id is [n], and the sprites of
    [allSprites] carry ids below [n], different sprites different ids. *)
Definition registered (n : Z) (w : World) : Prop :=
  0 ≤ n ∧ counter n w ∧
  ∃ l, allSprites (this w) = Some l ∧
       (∀ s, s ∈ l → ∃ i, id (sprites w s) = Num i ∧ 0 ≤ i < n) ∧
       (∀ a b, a ∈ l → b ∈ l →
               id (sprites w a) = id (sprites w b) → a = b).

(** A step of a history that is a tick. *)
Definition isTick (op : Op) : bool :=
  match op with
  | OpTick _ => true
  | _ => false
  end.

(** The calls of one frame through the handlers of [init], for the
    sprite list [l] at the physics step, the list [l'] at the render step
    and the calls [es] that the diagnostics make first. *)
Definition frameUpdates (l : list SpriteRef) : list Event :=
  [EnablePerfCounter "controller_update"; ControllerUpdate;
   ControllerMoveSprites;
   EnablePerfCounter "physics and collisions"; PhysicsMove; CameraUpdate]
  ++ map SpriteUpdate l.

Definition frameDraws (l' : list SpriteRef) (es : list Event) : list Event :=
  (EnablePerfCounter "sprite_draw" :: coreDraw l')
  ++ es ++ [ConsoleOverlayDraw; PowerCheckDeepSleep; ScreenUpdate].

(** The calls that the diagnostics handler makes before it draws the
    console overlay, for a scene of [n] sprites. *)
Definition diagnosticsCalls (g : Game) (n : nat) : list Event :=
  (if stats g && onStats g
   then [OnStats (lastStats g +:+ " sprites:" +:+ toString (Z.of_nat n))]
   else [])
  ++ (if debug g then [PhysicsDraw] else []).

(** Changes to a scene between two ticks. *)
Definition exampleChanges : list Op :=
  [OpAddSprite 3%nat; OpSetZ 3%nat 7; OpNeedsSorting; OpRender;
   OpRemoveSprite 3%nat].

(** The example world after [init], with sprite 1 and then sprite 2
    added, and an image cached by [render]. *)
Definition exampleRendered : World :=
  match run insertionSort [OpAddSprite 1%nat; OpAddSprite 2%nat; OpRender]
          exampleInit with
  | Ok (w, _) => w
  | Throw _ => exampleInit
  end.

End scene.

(** * Namespace [serial] *)

Module serial.

Definition Buffer := list byte.

(** [control.createBufferFromUTF8]: strings are held as their UTF-8
    bytes. *)
Definition createBufferFromUTF8 (text : string) : Buffer :=
  list_byte_of_string text.

(** [Buffer.toString] *)
Definition Buffer_toString (b : Buffer) : string := string_of_list_byte b.

(** A delimiter is a character code. *)
Definition Delimiters := byte.

Inductive ConsolePriority : Type := Debug | Log | Warning | Error | Silent.

(** ** The decoder *)

(** Modelled from the spec: the [UTF8Decoder] class is not in the source
    file.  Glossary: a stateful UTF-8 assembler that buffers partial byte
    sequences across read calls until a requested delimiter or the full text
    is available; [decodeUntil] gives the text up to and excluding the
    delimiter as soon as it appears, [undefined] otherwise. *)
Record UTF8Decoder : Type := {
  buf : list byte
}.

(** Modelled from the spec: [new UTF8Decoder()], nothing buffered. *)
Definition UTF8Decoder_new : UTF8Decoder := {| buf := [] |}.

(** Modelled from the spec: [UTF8Decoder.add], the bytes read are
    buffered after those already there. *)
Definition UTF8Decoder_add (b : Buffer) (d : UTF8Decoder) : UTF8Decoder :=
  {| buf := buf d ++ b |}.

(** Modelled from the spec: the search of [UTF8Decoder.decodeUntil] for
    the delimiter; the bytes before its first occurrence and the bytes after
    it. *)
Fixpoint splitAtDelimiter (delimiter : byte) (l : list byte)
  : option (list byte * list byte) :=
  match l with
  | [] => None
  | b :: l' =>
      if Byte.eqb b delimiter then Some ([], l')
      else match splitAtDelimiter delimiter l' with
           | Some (pre, post) => Some (b :: pre, post)
           | None => None
           end
  end.

(** Modelled from the spec: [UTF8Decoder.decodeUntil], the text up to
    and excluding the delimiter as soon as it appears, [undefined]
    otherwise; the delimiter is consumed. *)
Definition UTF8Decoder_decodeUntil (delimiter : Delimiters) (d : UTF8Decoder)
  : option string * UTF8Decoder :=
  match splitAtDelimiter delimiter (buf d) with
  | Some (pre, post) => (Some (Buffer_toString pre), {| buf := post |})
  | None => (None, d)
  end.

(** Modelled from the spec: partial byte sequences, by the UTF-8
    encoding.  Number of bytes of the sequence that a byte starts; 0 for a
    continuation byte. *)
Definition utf8_length (b : byte) : nat :=
  let n := Byte.to_N b in
  if (n <? 128)%N then 1%nat
  else if (n <? 192)%N then 0%nat
  else if (n <? 224)%N then 2%nat
  else if (n <? 240)%N then 3%nat
  else 4%nat.

(** Modelled from the spec: length of the partial byte sequence at the
    end of a buffer, given the buffer reversed; [seen] counts the
    continuation bytes passed. *)
Fixpoint partialTail (seen : nat) (rev_buf : list byte) : nat :=
  match rev_buf with
  | [] => 0%nat
  | b :: r =>
      match utf8_length b with
      | O => if (seen <? 3)%nat then partialTail (S seen) r else 0%nat
      | n => if (S seen <? n)%nat then S seen else 0%nat
      end
  end.

(** Modelled from the spec: [UTF8Decoder.decode], the text of the
    complete characters buffered so far; a partial trailing sequence stays
    in the decoder. *)
Definition UTF8Decoder_decode (d : UTF8Decoder) : string * UTF8Decoder :=
  let k := (length (buf d) - partialTail 0 (rev (buf d)))%nat in
  (Buffer_toString (take k (buf d)), {| buf := drop k (buf d) |}).

(** ** The transport *)

(** Modelled from the spec: the device object returned by [device()] is
    not in the source file.  Section 6: a byte stream read and written over
    a configurable transport; [readBuffer()] gives the raw bytes received,
    or an empty buffer if none.  [incoming] lists what the coming calls of
    [readBuffer] find. *)
Record Device : Type := {
  incoming : list Buffer;
  sent : list byte;
  rxBufferSize : Z;
  txBufferSize : Z;
  baudRate : Z;
  pins : option (Z * Z);
  eventHandlers : list (Z * nat)
}.

(** Modelled from the spec: [readBuffer()] of the device, the raw bytes
    received, or an empty buffer if none. *)
Definition Device_readBuffer (ser : Device) : Buffer * Device :=
  match incoming ser with
  | [] => ([], ser)
  | b :: rest =>
      (b, {| incoming := rest; sent := sent ser;
             rxBufferSize := rxBufferSize ser;
             txBufferSize := txBufferSize ser; baudRate := baudRate ser;
             pins := pins ser; eventHandlers := eventHandlers ser |})
  end.

(** Modelled from the spec: [read()] of the device.  The documentation
    of [serial.read]: a single byte of the receive buffer, 0 if no data. *)
Definition Device_read (ser : Device) : Z * Device :=
  match incoming ser with
  | (b :: bs) :: rest =>
      (Z.of_N (Byte.to_N b),
       {| incoming := bs :: rest; sent := sent ser;
          rxBufferSize := rxBufferSize ser;
          txBufferSize := txBufferSize ser; baudRate := baudRate ser;
          pins := pins ser; eventHandlers := eventHandlers ser |})
  | _ => (0, ser)
  end.

(** Modelled from the spec: [writeBuffer] of the device sends raw data,
    after what was sent before. *)
Definition Device_writeBuffer (b : Buffer) (ser : Device) : Device :=
  {| incoming := incoming ser; sent := sent ser ++ b;
     rxBufferSize := rxBufferSize ser; txBufferSize := txBufferSize ser;
     baudRate := baudRate ser; pins := pins ser;
     eventHandlers := eventHandlers ser |}.

(** Modelled from the spec: the four functions that reconfigure the
    transport, and the registration of a callback for its events. *)
Definition Device_setRxBufferSize (size : Z) (ser : Device) : Device :=
  {| incoming := incoming ser; sent := sent ser;
     rxBufferSize := size; txBufferSize := txBufferSize ser;
     baudRate := baudRate ser; pins := pins ser;
     eventHandlers := eventHandlers ser |}.

Definition Device_setTxBufferSize (size : Z) (ser : Device) : Device :=
  {| incoming := incoming ser; sent := sent ser;
     rxBufferSize := rxBufferSize ser; txBufferSize := size;
     baudRate := baudRate ser; pins := pins ser;
     eventHandlers := eventHandlers ser |}.

Definition Device_setBaudRate (rate : Z) (ser : Device) : Device :=
  {| incoming := incoming ser; sent := sent ser;
     rxBufferSize := rxBufferSize ser; txBufferSize := txBufferSize ser;
     baudRate := rate; pins := pins ser;
     eventHandlers := eventHandlers ser |}.

Definition Device_redirect (tx rx rate : Z) (ser : Device) : Device :=
  {| incoming := incoming ser; sent := sent ser;
     rxBufferSize := rxBufferSize ser; txBufferSize := txBufferSize ser;
     baudRate := rate; pins := Some (tx, rx);
     eventHandlers := eventHandlers ser |}.

Definition Device_onEvent (event : Z) (h : nat) (ser : Device) : Device :=
  {| incoming := incoming ser; sent := sent ser;
     rxBufferSize := rxBufferSize ser; txBufferSize := txBufferSize ser;
     baudRate := baudRate ser; pins := pins ser;
     eventHandlers := eventHandlers ser ++ [(event, h)] |}.

(** ** State of the namespace and of what it talks to *)

Record State : Type := {
  NEW_LINE : string;
  _decoder : option UTF8Decoder;
  device : option Device;
  (* [control.millis()] *)
  millis : Z;
  (* by how much the coming calls of [pause] oversleep *)
  oversleep : list nat;
  (* whether [logListener] listens to the console *)
  consoleListeners : nat
}.

Definition CRLF : string :=
  String (ascii_of_nat 13) (String (ascii_of_nat 10) EmptyString).

(** The state when the namespace has been loaded. *)
Definition initial (dev : option Device) (t : Z) (o : list nat) : State :=
  {| NEW_LINE := CRLF; _decoder := None; device := dev; millis := t;
     oversleep := o; consoleListeners := 0 |}.

Definition set_decoder (d : UTF8Decoder) (st : State) : State :=
  {| NEW_LINE := NEW_LINE st; _decoder := Some d; device := device st;
     millis := millis st; oversleep := oversleep st;
     consoleListeners := consoleListeners st |}.

Definition set_device (ser : Device) (st : State) : State :=
  {| NEW_LINE := NEW_LINE st; _decoder := _decoder st; device := Some ser;
     millis := millis st; oversleep := oversleep st;
     consoleListeners := consoleListeners st |}.

(** Modelled from the spec: [pause] and [control.millis] are not in the
    source file.  Section 6: [readUntil] polls every ~1 time unit;
    [pause(ms)] lets [ms] pass on the clock, and possibly more. *)
Definition pause (ms : Z) (st : State) : State :=
  match oversleep st with
  | [] =>
      {| NEW_LINE := NEW_LINE st; _decoder := _decoder st;
         device := device st; millis := millis st + ms;
         oversleep := []; consoleListeners := consoleListeners st |}
  | o :: rest =>
      {| NEW_LINE := NEW_LINE st; _decoder := _decoder st;
         device := device st; millis := millis st + ms + Z.of_nat o;
         oversleep := rest; consoleListeners := consoleListeners st |}
  end.

(** ** The functions of the namespace *)

Section Functions.

(** [DAL.DEVICE_NOT_SUPPORTED] and [Delimiters.NewLine] are declared
    elsewhere. *)
Variable DEVICE_NOT_SUPPORTED : Z.
Variable Delimiters_NewLine : Delimiters.

(** [decoder()]: the decoder is created on first use. *)
Definition decoder (st : State) : UTF8Decoder * State :=
  match _decoder st with
  | Some d => (d, st)
  | None => (UTF8Decoder_new, set_decoder UTF8Decoder_new st)
  end.

Definition readBuffer (st : State) : Buffer * State :=
  match device st with
  | Some ser =>
      let '(b, ser') := Device_readBuffer ser in (b, set_device ser' st)
  | None => ([], st)
  end.

Definition read (st : State) : Z * State :=
  match device st with
  | Some ser => let '(v, ser') := Device_read ser in (v, set_device ser' st)
  | None => (DEVICE_NOT_SUPPORTED, st)
  end.

Definition writeBuffer (buffer : Buffer) (st : State) : State :=
  match device st with
  | None => st
  | Some ser => set_device (Device_writeBuffer buffer ser) st
  end.

Definition readString (st : State) : string * State :=
  let '(b, st) := readBuffer st in
  let '(d, st) := decoder st in
  let d := UTF8Decoder_add b d in
  let '(s, d) := UTF8Decoder_decode d in
  (s, set_decoder d st).

(** One round of the loop of [readUntil] after the delimiter was not
    found: read the receive buffer, add it to the decoder, pause. *)
Definition poll (d : UTF8Decoder) (st : State) : State :=
  let '(b, st) := readBuffer st in
  let st := set_decoder (UTF8Decoder_add b d) st in
  pause 1 st.

(** The [do ... while] loop of [readUntil]; [None] when the loop is still
    running after [fuel] rounds. *)
Fixpoint readUntil_loop (fuel : nat) (delimiter : Delimiters)
    (timeOut : option Z) (start : Z) (st : State) : option (string * State) :=
  match fuel with
  | O => None
  | S fuel' =>
      let d := default UTF8Decoder_new (_decoder st) in
      match UTF8Decoder_decodeUntil delimiter d with
      | (Some s, d') => Some (s, set_decoder d' st)
      | (None, _) =>
          let st := poll d st in
          let continue :=
            match timeOut with
            | None => true
            | Some t => millis st - start <? t
            end in
          if continue then readUntil_loop fuel' delimiter timeOut start st
          else Some (EmptyString, st)
      end
  end.

Definition readUntil (fuel : nat) (delimiter : Delimiters)
    (timeOut : option Z) (st : State) : option (string * State) :=
  let '(_, st) := decoder st in
  let start := millis st in
  readUntil_loop fuel delimiter timeOut start st.

Definition readLine (fuel : nat) (st : State) : option (string * State) :=
  readUntil fuel Delimiters_NewLine None st.

Definition writeString (text : string) (st : State) : State :=
  writeBuffer (createBufferFromUTF8 text) st.

Definition writeLine (text : string) (st : State) : State :=
  let st := writeString text st in
  writeString (NEW_LINE st) st.

Definition writeNumber (value : Z) (st : State) : State :=
  writeString (toString value) st.

Definition writeValue (name : string) (value : Z) (st : State) : State :=
  let st :=
    if negb (String.eqb name EmptyString) then
      let st := writeString name st in
      writeString ":" st
    else st in
  let st := writeNumber value st in
  writeString (NEW_LINE st) st.

Definition setRxBufferSize (size : Z) (st : State) : State :=
  match device st with
  | Some ser => set_device (Device_setRxBufferSize size ser) st
  | None => st
  end.

Definition setTxBufferSize (size : Z) (st : State) : State :=
  match device st with
  | Some ser => set_device (Device_setTxBufferSize size ser) st
  | None => st
  end.

Definition setBaudRate (rate : Z) (st : State) : State :=
  match device st with
  | None => st
  | Some ser => set_device (Device_setBaudRate rate ser) st
  end.

Definition attachToConsole (st : State) : State :=
  match device st with
  | None => st
  | Some _ =>
      {| NEW_LINE := NEW_LINE st; _decoder := _decoder st;
         device := device st; millis := millis st;
         oversleep := oversleep st;
         consoleListeners := S (consoleListeners st) |}
  end.

Definition logListener (priority : ConsolePriority) (text : string)
    (st : State) : State :=
  let st :=
    match priority with
    | Debug => writeString "dbg> " st
    | Error => writeString "err> " st
    | Warning => writeString "wrn> " st
    | _ => st
    end in
  writeLine text st.

Definition redirect (tx rx rate : Z) (st : State) : State :=
  match device st with
  | None => st
  | Some ser => set_device (Device_redirect tx rx rate ser) st
  end.

Definition onEvent (event : Z) (h : nat) (st : State) : State :=
  match device st with
  | None => st
  | Some ser => set_device (Device_onEvent event h ser) st
  end.

End Functions.

(** ** Predicates and examples *)

(** The bytes that the decoder holds. *)
Definition pending (st : State) : list byte :=
  buf (default UTF8Decoder_new (_decoder st)).

(** The bytes that the decoder holds, followed by what the device will
    deliver. *)
Definition stream (st : State) : list byte :=
  pending st ++
  match device st with
  | Some ser => concat (incoming ser)
  | None => []
  end.

(** A device that will deliver [chunks]. *)
Definition exampleDevice (chunks : list Buffer) : Device :=
  {| incoming := chunks; sent := []; rxBufferSize := 64; txBufferSize := 64;
     baudRate := 115200; pins := None; eventHandlers := [] |}.

(** The line feed character. *)
Definition LF : byte := x0a.

(** One round of the loop of [readUntil] in which the delimiter is not
    found. *)
Definition round (st : State) : State :=
  poll (default UTF8Decoder_new (_decoder st)) st.

(** The state after [k] rounds of the loop of [readUntil] in none of which
    the delimiter is found. *)
Definition rounds (k : nat) (st : State) : State := Nat.iter k round st.

(** A state in which the first call of [readBuffer] finds a whole
    line. *)
Definition exampleLine : State :=
  initial (Some (exampleDevice [[x61; LF]])) 0 [].

(** A state with a device that has nothing to deliver. *)
Definition exampleIdle : State := initial (Some (exampleDevice [])) 0 [].

(** A state without a device. *)
Definition exampleNoDevice : State := initial None 0 [].

(** The bytes that the device has sent. *)
Definition sentBy (st : State) : option (list byte) := sent <$> device st.

(** The carriage return character. *)
Definition CR : byte := x0d.

(** The text that [logListener] puts before a message. *)
Definition logPrefix (priority : ConsolePriority) : string :=
  match priority with
  | Debug => "dbg> "
  | Error => "err> "
  | Warning => "wrn> "
  | _ => EmptyString
  end.

(** The name and the colon that [writeValue] puts before a value. *)
Definition valuePrefix (name : string) : string :=
  if String.eqb name EmptyString then EmptyString else name +:+ ":".

(** A state in which the device delivers, in three chunks, what
    [writeLine] sends for the text [hi]. *)
Definition exampleEcho : State :=
  initial (Some (exampleDevice [[x68]; [x69; CR]; [LF]])) 0 [].

(** A state in which the device delivers two lines in three chunks. *)
Definition exampleTwoLines : State :=
  initial (Some (exampleDevice [[x61]; [x62; LF; x63]; [LF; x64]])) 0 [].

End serial.

(** * Facts about the scene *)

Module scene_facts.
Import scene.

(** ** Results *)

Lemma is_Ok_Ok {A} (a : A) : is_Ok (Ok a).
Proof. by exists a. Qed.

Lemma not_is_Ok_Throw {A} (e : error) : ¬ is_Ok (@Throw A e).
Proof. by intros [a Ha]. Qed.

Lemma bind_Ok {A B} (f : A → result B) (m : result A) (b : B) :
  m ≫= f = Ok b → ∃ a, m = Ok a ∧ f a = Ok b.
Proof. destruct m as [a|e]; [|done]. intros H. by exists a. Qed.

Lemma deref_Ok {A} (what : string) (o : option A) (a : A) :
  deref what o = Ok a ↔ o = Some a.
Proof. destruct o; simpl; split; congruence. Qed.

(** ** The registry of frame handlers *)

Lemma insertCallback_perm (fn : FrameCallback) (l : list FrameCallback) :
  insertCallback fn l ≡ₚ fn :: l.
Proof.
  induction l as [|c l IH]; simpl; [done|].
  destruct (order fn <? order c); [done|].
  rewrite IH. apply perm_swap.
Qed.

Lemma insertCallback_sorted (fn : FrameCallback) (l : list FrameCallback) :
  StronglySorted orderLe l → StronglySorted orderLe (insertCallback fn l).
Proof.
  induction 1 as [|c l Hl IH Hc]; simpl.
  - repeat constructor.
  - destruct (Z.ltb_spec (order fn) (order c)) as [Hlt|Hge].
    + constructor; [by constructor|].
      constructor; [unfold orderLe; lia|].
      eapply Forall_impl; [exact Hc|]. unfold orderLe. intros; lia.
    + constructor; [done|].
      rewrite insertCallback_perm. constructor; [exact Hge|done].
Qed.

(** A handler registered later runs after the handlers of the same
    priority that are already there. *)
Lemma insertCallback_ties (fn : FrameCallback) (l : list FrameCallback) :
  ∃ l1 l2, l = l1 ++ l2 ∧ insertCallback fn l = l1 ++ fn :: l2 ∧
           Forall (λ c, order c ≤ order fn) l1.
Proof.
  induction l as [|c l (l1 & l2 & -> & Hins & Hall)]; simpl.
  - by exists [], [].
  - destruct (Z.ltb_spec (order fn) (order c)) as [Hlt|Hge].
    + by exists [], (c :: l1 ++ l2).
    + exists (c :: l1), l2. rewrite Hins. repeat split; by try constructor.
Qed.

(** ** [init] *)

Ltac open_world w :=
  let s := fresh "s" in
  destruct w as [s ? ? ? ? ?]; destruct s; simpl in *; subst; simpl in *.

Ltac unfold_world :=
  repeat (unfold mret, mbind, result_ret, result_mbind, result_bind,
            emitAll, emit, set_trace, set_this, set_contexts, set_sprites,
            set_nextImage, set_allSprites, set_spriteNextId, set_flags,
            set_millis, set_cachedRender, deref in *;
          simpl in *).

(** What [init] does on a scene whose sprite list does not exist yet,
    up to the point where it runs the initializers. *)
Lemma init_registers (inits : list (World → result World)) (w : World) (c : nat) :
  allSprites (this w) = None → eventContext (this w) = Some c →
  ∃ w1, init inits w = forEach inits w1 ∧
        this w1 = set_spriteNextId (Some (Num 0))
                    (set_allSprites (Some []) (this w)) ∧
        trace w1 = trace w ++ [PowerPoke] ∧
        frameCallbacks (contexts w1 c) =
          foldl (λ l cb, insertCallback cb l)
                (frameCallbacks (contexts w c)) initCallbacks ∧
        deltaTimeMillis (contexts w1 c) = deltaTimeMillis (contexts w c) ∧
        (∀ c', c' ≠ c → contexts w1 c' = contexts w c') ∧
        sprites w1 = sprites w ∧ nextImage w1 = nextImage w ∧
        game w1 = game w.
Proof.
  intros Hs Hc. open_world w. unfold init; simpl.
  unfold registerFrameHandler; simpl.
  eexists. split; [reflexivity|]. simpl.
  repeat split; try reflexivity.
  - by rewrite !fn_lookup_insert.
  - by rewrite !fn_lookup_insert.
  - intros c' Hne. by rewrite !fn_lookup_insert_ne.
Qed.

Lemma init_initialised (inits : list (World → result World)) (w : World) :
  is_Some (allSprites (this w)) → init inits w = Ok w.
Proof. intros [l Hl]. unfold init. by rewrite Hl. Qed.

Lemma init_no_context (inits : list (World → result World)) (w : World) :
  allSprites (this w) = None → eventContext (this w) = None →
  init inits w = Throw (TypeError "eventContext").
Proof. intros Hs Hc. open_world w. reflexivity. Qed.

Lemma forEach_keepsSprites (inits : list (World → result World)) (w w' : World) :
  Forall keepsSprites inits → forEach inits w = Ok w' →
  is_Some (allSprites (this w)) → is_Some (allSprites (this w')).
Proof.
  intros Hall. revert w. induction Hall as [|f fs Hf _ IH]; intros w; simpl.
  - by intros [= ->].
  - intros Hrun Hw. apply bind_Ok in Hrun as (w1 & Hf1 & Hrest).
    eapply IH; [exact Hrest|]. by eapply Hf.
Qed.

Lemma init_allSprites (inits : list (World → result World)) (w w' : World) :
  Forall keepsSprites inits → init inits w = Ok w' →
  is_Some (allSprites (this w')).
Proof.
  intros Hall Hinit.
  destruct (allSprites (this w)) as [l|] eqn:Hs.
  - rewrite init_initialised in Hinit by (by rewrite Hs).
    injection Hinit as <-. by rewrite Hs.
  - destruct (eventContext (this w)) as [c|] eqn:Hc.
    + destruct (init_registers inits w c Hs Hc) as (w1 & Hi & Hthis & _).
      rewrite Hi in Hinit.
      eapply forEach_keepsSprites; [exact Hall|exact Hinit|].
      rewrite Hthis. simpl. by eexists.
    + by rewrite init_no_context in Hinit.
Qed.

(** ** Traces *)

Lemma emitAll_emitAll (es1 es2 : list Event) (w : World) :
  emitAll es2 (emitAll es1 w) = emitAll (es1 ++ es2) w.
Proof. destruct w; unfold emitAll, set_trace; simpl. by rewrite app_assoc. Qed.

Lemma emit_emitAll (e : Event) (w : World) : emit e w = emitAll [e] w.
Proof. reflexivity. Qed.

Lemma fired_app (t1 t2 : list Event) : fired (t1 ++ t2) = fired t1 ++ fired t2.
Proof. apply omap_app. Qed.

Lemma fired_SpriteUpdate (l : list SpriteRef) : fired (map SpriteUpdate l) = [].
Proof. induction l; simpl; auto. Qed.

Lemma fired_SpriteDraw (l : list SpriteRef) : fired (map SpriteDraw l) = [].
Proof. induction l; simpl; auto. Qed.

Lemma spritesDrawn_app (t1 t2 : list Event) :
  spritesDrawn (t1 ++ t2) = spritesDrawn t1 ++ spritesDrawn t2.
Proof.
  induction t1 as [|e t1 IH]; simpl; [done|].
  destruct e; simpl; by rewrite ?IH.
Qed.

Lemma spritesDrawn_SpriteDraw (l : list SpriteRef) :
  spritesDrawn (map SpriteDraw l) = l.
Proof. induction l; simpl; congruence. Qed.

Lemma spritesDrawn_coreDraw (l : list SpriteRef) : spritesDrawn (coreDraw l) = l.
Proof. unfold coreDraw. simpl. apply spritesDrawn_SpriteDraw. Qed.

(** ** The frame handlers, one by one *)

Section Handlers.

Variable arraySort :
  (SpriteRef → SpriteRef → number) → list SpriteRef → list SpriteRef.

Lemma renderCore_unsorted (w : World) (bg : Background) (l : list SpriteRef) :
  background (this w) = Some bg → allSprites (this w) = Some l →
  flags_and (flags (this w)) NeedsSorting = 0 →
  renderCore arraySort w = Ok (emitAll (coreDraw l) w).
Proof.
  intros Hbg Hl Hf. open_world w. unfold renderCore; simpl.
  rewrite Hf. unfold coreDraw. unfold_world.
  by rewrite <- !app_assoc.
Qed.

Lemma renderCore_sorted (w : World) (bg : Background) (l : list SpriteRef) :
  background (this w) = Some bg → allSprites (this w) = Some l →
  flags_and (flags (this w)) NeedsSorting ≠ 0 →
  renderCore arraySort w =
    Ok (emitAll (coreDraw (arraySort (compareSprites (sprites w)) l))
          (set_this
             (set_allSprites
                (Some (arraySort (compareSprites (sprites w)) l)) (this w))
             w)).
Proof.
  intros Hbg Hl Hf. open_world w. unfold renderCore; simpl.
  apply Z.eqb_neq in Hf. rewrite Hf. unfold coreDraw. unfold_world.
  by rewrite <- !app_assoc.
Qed.

Lemma renderCore_no_sprites (w : World) :
  allSprites (this w) = None →
  ∃ what, renderCore arraySort w = Throw (TypeError what).
Proof.
  intros Hl. unfold renderCore; simpl.
  destruct (background (this w)); simpl; [|by eexists].
  destruct (negb _); simpl; rewrite Hl; simpl; by eexists.
Qed.

Lemma controllerStateHandler_alive (w : World) (c : nat) :
  eventContext (this w) = Some c →
  controllerStateHandler w =
    Ok (emitAll [EnablePerfCounter "controller_update"; ControllerUpdate]
          (set_this
             (set_millis (_millis (this w) + deltaTimeMillis (contexts w c))
                (this w)) w)).
Proof.
  intros Hc. open_world w. unfold controllerStateHandler. unfold_world.
  by rewrite <- !app_assoc.
Qed.

Lemma physicsHandler_alive (w : World) (l : list SpriteRef) :
  alive w → allSprites (this w) = Some l →
  physicsHandler w =
    Ok (emitAll ([EnablePerfCounter "physics and collisions"; PhysicsMove;
                  CameraUpdate] ++ map SpriteUpdate l) w).
Proof.
  intros ([c Hc] & _ & [pe Hpe] & [cam Hcam] & _) Hl.
  open_world w. simplify_eq. unfold physicsHandler. unfold_world.
  by rewrite <- !app_assoc.
Qed.

(** The calls of the diagnostics handler, for [n] sprites. *)
Lemma diagnosticsHandler_alive (w : World) (l : list SpriteRef) :
  alive w → allSprites (this w) = Some l →
  ∃ es, diagnosticsHandler w =
          Ok (emitAll (es ++ [ConsoleOverlayDraw; PowerCheckDeepSleep])
                (set_this (set_flags (Some 0) (this w)) w)) ∧
        fired es = [] ∧ spritesDrawn es = [].
Proof.
  intros ([c Hc] & _ & [pe Hpe] & [cam Hcam] & _) Hl.
  open_world w. simplify_eq. unfold diagnosticsHandler.
  match goal with g : Game |- _ => destruct g as [st db os ls] end.
  destruct st, os, db; unfold_world;
    first [ by (eexists [_; _]; rewrite <- !app_assoc)
          | by (eexists [_]; rewrite <- !app_assoc)
          | by (exists []; rewrite <- ?app_assoc) ].
Qed.

End Handlers.

(** ** Sorting *)

Lemma comesBefore_cmp_le {A} (cmp : A → A → number) (a b : A) :
  comesBefore cmp a b = true ↔ cmp_le cmp a b.
Proof.
  unfold comesBefore, cmp_le. destruct (cmp a b); [done|].
  apply Z.leb_le.
Qed.

Lemma insertSorted_perm {A} (cmp : A → A → number) (x : A) (l : list A) :
  insertSorted cmp x l ≡ₚ x :: l.
Proof.
  induction l as [|y l IH]; simpl; [done|].
  destruct (comesBefore cmp x y); [done|].
  rewrite IH. apply perm_swap.
Qed.

Lemma insertionSort_perm {A} (cmp : A → A → number) (l : list A) :
  insertionSort cmp l ≡ₚ l.
Proof.
  induction l as [|x l IH]; simpl; [done|].
  rewrite insertSorted_perm. by rewrite IH.
Qed.

Lemma consistentOn_perm {A} (cmp : A → A → number) (l l' : list A) :
  l ≡ₚ l' → consistentOn cmp l → consistentOn cmp l'.
Proof.
  intros Hp [Htot Htr]. split.
  - intros a b Ha Hb. apply Htot; by rewrite Hp.
  - intros a b c Ha Hb Hc. apply Htr; by rewrite Hp.
Qed.

Lemma consistentOn_tail {A} (cmp : A → A → number) (x : A) (l : list A) :
  consistentOn cmp (x :: l) → consistentOn cmp l.
Proof.
  intros [Htot Htr]. split.
  - intros a b Ha Hb. apply Htot; by right.
  - intros a b c Ha Hb Hc. apply Htr; by right.
Qed.

Lemma insertSorted_sorted {A} (cmp : A → A → number) (x : A) (l : list A) :
  consistentOn cmp (x :: l) →
  StronglySorted (cmp_le cmp) l →
  StronglySorted (cmp_le cmp) (insertSorted cmp x l).
Proof.
  intros Hc Hs. induction Hs as [|y l Hs IH Hy]; simpl.
  - repeat constructor.
  - destruct (comesBefore cmp x y) eqn:Hxy.
    + apply comesBefore_cmp_le in Hxy.
      constructor; [by constructor|].
      constructor; [done|].
      apply Forall_forall. intros c Hc'.
      destruct Hc as [_ Htr]. apply (Htr x y c).
      * by left.
      * right; by left.
      * right; by right.
      * done.
      * by eapply Forall_forall in Hy.
    + assert (cmp_le cmp y x) as Hyx.
      { destruct Hc as [Htot _].
        destruct (Htot x y) as [H|H]; [by left|right; by left| |done].
        apply comesBefore_cmp_le in H. congruence. }
      constructor.
      * apply IH. eapply consistentOn_perm in Hc; [|apply perm_swap].
        by eapply consistentOn_tail.
      * rewrite insertSorted_perm. by constructor.
Qed.

Lemma insertionSort_sorted {A} (cmp : A → A → number) (l : list A) :
  consistentOn cmp l → StronglySorted (cmp_le cmp) (insertionSort cmp l).
Proof.
  induction l as [|x l IH]; intros Hc; simpl; [constructor|].
  apply insertSorted_sorted.
  - eapply consistentOn_perm; [|exact Hc].
    constructor. by rewrite insertionSort_perm.
  - apply IH. by eapply consistentOn_tail.
Qed.

Lemma insertionSort_contract : SortContract insertionSort.
Proof.
  split.
  - intros cmp l. apply insertionSort_perm.
  - intros cmp l. apply insertionSort_sorted.
Qed.

(** The comparator of [renderCore] on sprites that carry an id. *)
Lemma compareSprites_zIdLe (h : SpriteRef → SpriteLike) (a b : SpriteRef) :
  (∃ i, id (h a) = Num i) → (∃ j, id (h b) = Num j) →
  cmp_le (compareSprites h) a b ↔ zIdLe h a b.
Proof.
  intros [i Hi] [j Hj]. unfold cmp_le, compareSprites, zIdLe, num_or.
  rewrite Hi, Hj. simpl.
  destruct (Z.eqb_spec (z (h a) - z (h b)) 0) as [He|Hne]; simpl.
  - split.
    + intros Hle. right. split; [lia|]. exists i, j. repeat split; lia.
    + intros [Hlt|[_ (i' & j' & [= <-] & [= <-] & Hle)]]; lia.
  - split.
    + intros Hle. left. lia.
    + intros [Hlt|[Heq _]]; lia.
Qed.

Lemma compareSprites_consistent (h : SpriteRef → SpriteLike) (l : list SpriteRef) :
  (∀ s, s ∈ l → ∃ i, id (h s) = Num i) → consistentOn (compareSprites h) l.
Proof.
  intros Hid. split.
  - intros a b Ha Hb.
    destruct (Hid a Ha) as [i Hi], (Hid b Hb) as [j Hj].
    rewrite !compareSprites_zIdLe by eauto. unfold zIdLe.
    rewrite Hi, Hj.
    destruct (Z.lt_trichotomy (z (h a)) (z (h b))) as [?|[?|?]];
      [left; by left| |right; by left].
    destruct (Z.le_ge_cases i j).
    + left. right. split; [done|]. by exists i, j.
    + right. right. split; [done|]. by exists j, i.
  - intros a b c Ha Hb Hc.
    rewrite !compareSprites_zIdLe by eauto. unfold zIdLe.
    intros [?|[? (i & j & Hi & Hj & ?)]] [?|[? (j' & k & Hj' & Hk & ?)]];
      try (left; lia).
    right. split; [lia|]. exists i, k. repeat split; try done.
    rewrite Hj in Hj'. injection Hj' as <-. lia.
Qed.

Lemma StronglySorted_on {A} (R R' : A → A → Prop) (l : list A) :
  (∀ a b, a ∈ l → b ∈ l → R a b → R' a b) →
  StronglySorted R l → StronglySorted R' l.
Proof.
  intros Himp Hs. induction Hs as [|x l Hs IH Hx]; constructor.
  - apply IH. intros a b Ha Hb. apply Himp; by right.
  - apply Forall_forall. intros b Hb. apply Himp; [by left|by right|].
    by eapply Forall_forall in Hx.
Qed.

(** ** Histories *)

Lemma eta_allSprites (w : World) (l : list SpriteRef) :
  allSprites (this w) = Some l →
  set_this (set_allSprites (Some l) (this w)) w = w.
Proof. intros Hl. open_world w. reflexivity. Qed.

Section Histories.

Variable arraySort :
  (SpriteRef → SpriteRef → number) → list SpriteRef → list SpriteRef.

(** The core draw sequence on a scene that has its background and its
    sprite list: it draws the list [l'] that it leaves in [allSprites]. *)
Lemma renderCore_drawable (w : World) (l : list SpriteRef) :
  is_Some (background (this w)) → allSprites (this w) = Some l →
  ∃ l', renderCore arraySort w =
          Ok (emitAll (coreDraw l')
                (set_this (set_allSprites (Some l') (this w)) w)) ∧
        (if decide (flags_and (flags (this w)) NeedsSorting = 0) then l' = l
         else l' = arraySort (compareSprites (sprites w)) l).
Proof.
  intros [bg Hbg] Hl.
  destruct (decide (flags_and (flags (this w)) NeedsSorting = 0)) as [Hf|Hf].
  - exists l. split; [|done].
    rewrite eta_allSprites by done. by eapply renderCore_unsorted.
  - eexists. split; [|done]. by eapply renderCore_sorted.
Qed.

Ltac solve_counter :=
  match goal with
  | H : counter _ ?w |- _ =>
      let Hc := fresh in let Hb := fresh in let Hp := fresh in
      let Hm := fresh in let Hl := fresh in let Hn := fresh in
      destruct H as [(Hc & Hb & Hp & Hm & Hl) Hn];
      open_world w; unfold counter, alive; unfold_world; auto 10
  end.

Lemma addSprite_counter (s : SpriteRef) (n : Z) (w : World) :
  counter n w →
  ∃ w', addSprite s w = Ok w' ∧ counter (n + 1) w' ∧
        id (sprites w' s) = Num n.
Proof.
  intros H. pose proof H as [(_ & _ & _ & _ & [l Hl]) Hn].
  unfold addSprite. rewrite Hl. unfold_world. rewrite Hn. simpl.
  eexists. split; [reflexivity|]. split.
  - solve_counter.
  - simpl. by rewrite fn_lookup_insert.
Qed.

Lemma removeSprite_counter (s : SpriteRef) (n : Z) (w : World) :
  counter n w → ∃ w', removeSprite s w = Ok w' ∧ counter n w'.
Proof.
  intros H. pose proof H as [(_ & _ & _ & _ & [l Hl]) Hn].
  unfold removeSprite. rewrite Hl. eexists. split; [reflexivity|].
  solve_counter.
Qed.

Lemma renderSpritesHandler_drawable (w : World) (l : list SpriteRef) :
  is_Some (background (this w)) → allSprites (this w) = Some l →
  ∃ l', renderSpritesHandler arraySort w =
          Ok (emitAll (EnablePerfCounter "sprite_draw" :: coreDraw l')
                (set_this
                   (set_cachedRender None
                      (set_allSprites (Some l') (this w))) w)) ∧
        (if decide (flags_and (flags (this w)) NeedsSorting = 0) then l' = l
         else l' = arraySort (compareSprites (sprites w)) l).
Proof.
  intros Hbg Hl. unfold renderSpritesHandler.
  edestruct (renderCore_drawable
               (set_this (set_cachedRender None
                            (this (emit (EnablePerfCounter "sprite_draw") w)))
                  (emit (EnablePerfCounter "sprite_draw") w)) l)
    as (l' & -> & Hl'); [done|done|].
  exists l'. split; [|exact Hl'].
  open_world w. unfold_world. by rewrite <- app_assoc.
Qed.

(** Every frame handler runs to completion on a live scene, leaves it
    alive, keeps the id counter and the registry, and makes its mark. *)
Lemma runHandler_alive (h : FrameHandler) (w : World) :
  alive w →
  ∃ w', runHandler arraySort h w = Ok w' ∧ alive w' ∧
        spriteNextId (this w') = spriteNextId (this w) ∧
        contexts w' = contexts w ∧
        fired (trace w') = fired (trace w) ++ ownPriority h.
Proof.
  intros Ha. pose proof Ha as ([c Hc] & Hbg & Hpe & Hcam & [l Hl]).
  destruct h; simpl.
  - rewrite (controllerStateHandler_alive w c Hc).
    eexists. split; [reflexivity|].
    open_world w. unfold alive. unfold_world. by rewrite fired_app.
  - eexists. split; [reflexivity|].
    open_world w. unfold alive. unfold_world. by rewrite fired_app.
  - rewrite (physicsHandler_alive w l Ha Hl).
    eexists. split; [reflexivity|].
    open_world w. unfold alive. unfold_world.
    rewrite fired_app. simpl. by rewrite fired_SpriteUpdate.
  - destruct (renderSpritesHandler_drawable w l Hbg Hl) as (l' & -> & _).
    eexists. split; [reflexivity|].
    open_world w. unfold alive, coreDraw. unfold_world.
    rewrite fired_app. simpl. rewrite fired_SpriteDraw.
    repeat split; by eauto.
  - destruct (diagnosticsHandler_alive w l Ha Hl) as (es & -> & Hes & _).
    eexists. split; [reflexivity|].
    open_world w. unfold alive. unfold_world.
    rewrite !fired_app, Hes. simpl. repeat split; by eauto.
  - eexists. split; [reflexivity|].
    open_world w. unfold alive. unfold_world. by rewrite fired_app.
  - eexists. split; [reflexivity|].
    open_world w. unfold alive. unfold_world.
    rewrite fired_app. simpl. by rewrite app_nil_r.
Qed.

Lemma runCallbacks_alive (cbs : list FrameCallback) (w : World) :
  alive w →
  ∃ w', runCallbacks arraySort cbs w = Ok w' ∧ alive w' ∧
        spriteNextId (this w') = spriteNextId (this w) ∧
        contexts w' = contexts w ∧
        fired (trace w') =
          fired (trace w) ++ flat_map (λ cb, ownPriority (handler cb)) cbs.
Proof.
  revert w. induction cbs as [|cb cbs IH]; intros w Ha; simpl.
  - exists w. by rewrite app_nil_r.
  - destruct (runHandler_alive (handler cb) w Ha)
      as (w1 & -> & Ha1 & Hn1 & Hc1 & Hf1). simpl.
    destruct (IH w1 Ha1) as (w2 & -> & Ha2 & Hn2 & Hc2 & Hf2).
    exists w2. rewrite Hn2, Hc2, Hf2, Hn1, Hc1, Hf1.
    by rewrite <- app_assoc.
Qed.

Lemma render_counter (n : Z) (w : World) :
  counter n w → ∃ img w', render arraySort w = Ok (img, w') ∧ counter n w'.
Proof.
  intros H. unfold render.
  destruct (cachedRender (this w)) as [img|] eqn:Hcr.
  - by exists img, w.
  - pose proof H as [(_ & Hbg & _ & _ & [l Hl]) Hn].
    destruct (renderCore_drawable w l Hbg Hl) as (l' & -> & _).
    simpl. do 2 eexists. split; [reflexivity|]. solve_counter.
Qed.

Lemma runCallbacks_counter (cbs : list FrameCallback) (n : Z) (w : World) :
  counter n w → ∃ w', runCallbacks arraySort cbs w = Ok w' ∧ counter n w'.
Proof.
  intros [Ha Hn].
  destruct (runCallbacks_alive cbs w Ha) as (w' & -> & Ha' & Hn' & _).
  exists w'. split; [done|]. split; [done|]. by rewrite Hn'.
Qed.

Lemma step_counter (op : Op) (n : Z) (w : World) :
  counter n w →
  ∃ w', step arraySort op w = Ok w' ∧
        match op with
        | OpAddSprite s => counter (n + 1) w' ∧ id (sprites w' s) = Num n
        | _ => counter n w'
        end.
Proof.
  intros H. destruct op as [s|s|s v| | |c]; simpl.
  - by apply addSprite_counter.
  - by apply removeSprite_counter.
  - eexists. split; [reflexivity|]. solve_counter.
  - eexists. split; [reflexivity|]. solve_counter.
  - destruct (render_counter n w H) as (img & w' & -> & H').
    by exists w'.
  - by apply runCallbacks_counter.
Qed.

Lemma idsFrom_S (n : Z) (k : nat) :
  idsFrom n (S k) = Num n :: idsFrom (n + 1) k.
Proof.
  unfold idsFrom. simpl. f_equal; [f_equal; lia|].
  rewrite <- seq_shift, map_map. apply map_ext. intros i. f_equal. lia.
Qed.

Lemma run_counter (ops : list Op) (n : Z) (w : World) :
  counter n w →
  ∃ w' ids, run arraySort ops w = Ok (w', ids) ∧
            ids = idsFrom n (adds ops) ∧
            counter (n + Z.of_nat (adds ops)) w'.
Proof.
  revert n w. induction ops as [|op ops IH]; intros n w H; simpl.
  - exists w, []. split; [done|]. split; [done|]. by rewrite Z.add_0_r.
  - destruct (step_counter op n w H) as (w1 & -> & H1). simpl.
    destruct op as [s|s|s v| | |c];
      try (destruct (IH n w1 H1) as (w2 & ids & -> & -> & H2); simpl;
           by exists w2, (idsFrom n (adds ops))).
    destruct H1 as [H1 Hid].
    destruct (IH (n + 1) w1 H1) as (w2 & ids & -> & -> & H2). simpl.
    exists w2, (idsFrom n (S (adds ops))). split; [|split].
    + by rewrite Hid, idsFrom_S.
    + done.
    + replace (n + Z.of_nat (S (adds ops))) with (n + 1 + Z.of_nat (adds ops))
        by lia. done.
Qed.

Lemma idsFrom_NoDup (n : Z) (k : nat) : NoDup (idsFrom n k).
Proof.
  unfold idsFrom. apply NoDup_fmap_2; [|apply NoDup_seq].
  intros i j [= Hij]. lia.
Qed.

End Histories.

(** ** The sprite registry *)

Lemma init_constructed (w : World) :
  constructed w → ∃ w', init [] w = Ok w' ∧ counter 0 w' ∧
                        allSprites (this w') = Some [].
Proof.
  intros ([c Hc] & Hbg & Hpe & Hcam & Hs).
  destruct (init_registers [] w c Hs Hc) as (w1 & Hi & Hthis & _).
  exists w1. split; [done|].
  unfold counter, alive. rewrite Hthis.
  open_world w. unfold_world. auto 10.
Qed.

Lemma idsFrom_lookup (n : Z) (m k : nat) :
  (k < m)%nat → idsFrom n m !! k = Some (Num (n + Z.of_nat k)).
Proof.
  intros Hk. unfold idsFrom. rewrite list_lookup_fmap.
  by rewrite lookup_seq_lt.
Qed.

(** C1.  On a scene that [init] has just set up, whatever the history of
    [addSprite] calls, removals from [allSprites], [z] assignments, sort
    requests, [render] calls and ticks: the history runs to its end, and
    the ids that the [addSprite] calls assign are 0, 1, 2, ... in call
    order (the call number [k] assigns [k]), so that no id is assigned
    twice. *)
Theorem addSprite_ids_sequential
    (arraySort : (SpriteRef → SpriteRef → number) →
                 list SpriteRef → list SpriteRef)
    (w0 : World) (ops : list Op) :
  constructed w0 →
  ∃ w, init [] w0 = Ok w ∧
       ∃ w' ids, run arraySort ops w = Ok (w', ids) ∧
                 ids = idsFrom 0 (adds ops) ∧
                 (∀ k, (k < adds ops)%nat →
                       ids !! k = Some (Num (Z.of_nat k))) ∧
                 NoDup ids.
Proof.
  intros Hw0. destruct (init_constructed w0 Hw0) as (w & Hi & Hc & _).
  exists w. split; [done|].
  destruct (run_counter arraySort ops 0 w Hc) as (w' & ids & Hr & -> & _).
  exists w', (idsFrom 0 (adds ops)). split; [done|]. split; [done|]. split.
  - intros k Hk. by rewrite idsFrom_lookup.
  - apply idsFrom_NoDup.
Qed.

Lemma addSprite_ids_sequential_witness :
  constructed exampleWorld ∧
  ∃ w, init [] exampleWorld = Ok w ∧
       ∃ w' ids, run insertionSort exampleOps w = Ok (w', ids) ∧
                 ids = idsFrom 0 (adds exampleOps) ∧
                 (∀ k, (k < adds exampleOps)%nat →
                       ids !! k = Some (Num (Z.of_nat k))) ∧
                 NoDup ids.
Proof.
  assert (constructed exampleWorld) as H.
  { unfold constructed; simpl. repeat split; by eexists. }
  split; [exact H|].
  exact (addSprite_ids_sequential insertionSort exampleWorld exampleOps H).
Defined.

(** C10.  The constructor allocates neither [allSprites] nor
    [spriteNextId]; on a scene that was only constructed, [addSprite] and
    [render] fail on the missing sprite list.  [addSprite] returns exactly
    when the sprite list exists: it does after [init], and no more after
    [destroy]. *)
Theorem addSprite_needs_init
    (arraySort : (SpriteRef → SpriteRef → number) →
                 list SpriteRef → list SpriteRef)
    (ec : nat) (w : World) (sprite : SpriteRef) :
  allSprites (Scene_new ec) = None ∧
  spriteNextId (Scene_new ec) = None ∧
  addSprite sprite (set_this (Scene_new ec) w)
    = Throw (TypeError "allSprites") ∧
  render arraySort (set_this (Scene_new ec) w)
    = Throw (TypeError "allSprites") ∧
  (is_Ok (addSprite sprite w) ↔ is_Some (allSprites (this w))) ∧
  (∀ inits w', Forall keepsSprites inits → init inits w = Ok w' →
               is_Ok (addSprite sprite w')) ∧
  addSprite sprite (destroy w) = Throw (TypeError "allSprites").
Proof.
  assert (∀ v, is_Ok (addSprite sprite v) ↔ is_Some (allSprites (this v)))
    as Hiff.
  { intros v. unfold addSprite. destruct (allSprites (this v)) as [l|]; simpl.
    - split; [by eexists|]. intros _. unfold postIncrement; simpl.
      apply is_Ok_Ok.
    - split; [intros []%not_is_Ok_Throw|by intros [? ?]]. }
  repeat split; try reflexivity.
  - apply Hiff.
  - apply Hiff.
  - intros inits w' Hall Hinit. apply Hiff. by eapply init_allSprites.
Qed.

(** ** [init] and [destroy] *)

(** C5.  A second call of [init] is a no-op: it returns the world that
    the first call left, registry, trace and every field of the scene
    unchanged.  (The initializers do not take the sprite list away.) *)
Theorem init_idempotent
    (inits : list (World → result World)) (w w' : World) :
  Forall keepsSprites inits →
  init inits w = Ok w' →
  init inits w' = Ok w'.
Proof.
  intros Hall Hinit. apply init_initialised. by eapply init_allSprites.
Qed.

Lemma addSprite_keepsSprites (s : SpriteRef) : keepsSprites (addSprite s).
Proof.
  intros v v' Hadd _. unfold addSprite in Hadd.
  destruct (allSprites (this v)); [|discriminate]. simpl in Hadd.
  unfold mret, result_ret in Hadd. injection Hadd as <-.
  simpl. by eexists.
Qed.

Lemma init_idempotent_witness :
  Forall keepsSprites [addSprite 7%nat] ∧
  ∃ w', init [addSprite 7%nat] exampleWorld = Ok w' ∧
        init [addSprite 7%nat] w' = Ok w'.
Proof.
  assert (Forall keepsSprites [addSprite 7%nat]) as H.
  { constructor; [apply addSprite_keepsSprites|constructor]. }
  split; [exact H|].
  eexists. split; [vm_compute; reflexivity|].
  apply (init_idempotent [addSprite 7%nat] exampleWorld _ H).
  vm_compute; reflexivity.
Defined.

(** C6, what the code does.  [destroy] sets fifteen fields to
    [undefined]; it leaves [overlapMap], [particleSources],
    [controlledSprites], [followingSprites], [_millis] and [cachedRender]
    as they were.  On a scene that was only constructed, [overlapMap] and
    [controlledSprites] are still there after [destroy]. *)
Theorem destroy_leaves_overlapMap (w : World) (ec : nat) :
  let s := this (destroy w) in
  (eventContext s = None ∧ background s = None ∧ tileMap s = None ∧
   allSprites s = None ∧ spriteNextId s = None ∧ spritesByKind s = None ∧
   physicsEngine s = None ∧ camera s = None ∧ flags s = None ∧
   destroyedHandlers s = None ∧ createdHandlers s = None ∧
   overlapHandlers s = None ∧ collisionHandlers s = None ∧
   gameForeverHandlers s = None ∧ _data s = None) ∧
  (overlapMap s = overlapMap (this w) ∧
   particleSources s = particleSources (this w) ∧
   controlledSprites s = controlledSprites (this w) ∧
   followingSprites s = followingSprites (this w) ∧
   _millis s = _millis (this w) ∧
   cachedRender s = cachedRender (this w)) ∧
  (overlapMap (Scene_destroy (Scene_new ec)) = Some ∅ ∧
   controlledSprites (Scene_destroy (Scene_new ec)) = Some []).
Proof. simpl. repeat split. Qed.

(** ** The frame handlers of [init] *)

Lemma foldl_insertCallback_perm (cbs l : list FrameCallback) :
  foldl (λ l cb, insertCallback cb l) l cbs ≡ₚ cbs ++ l.
Proof.
  revert l. induction cbs as [|cb cbs IH]; intros l; simpl; [done|].
  rewrite IH, insertCallback_perm. by rewrite Permutation_middle.
Qed.

Lemma foldl_insertCallback_sorted (cbs l : list FrameCallback) :
  StronglySorted orderLe l →
  StronglySorted orderLe (foldl (λ l cb, insertCallback cb l) l cbs).
Proof.
  revert l. induction cbs as [|cb cbs IH]; intros l Hl; simpl; [done|].
  apply IH. by apply insertCallback_sorted.
Qed.

(** C2, as the code has it.  On a constructed scene, [init] registers
    six handlers with the event context, at the priorities 8, 13, 15, 90,
    150 and 200; the registry stays ordered by priority, what was
    registered before is still there, and on a registry that was empty a
    tick fires the six handlers in this ascending order.  No handler is
    registered at 14. *)
Theorem init_registers_six_handlers
    (arraySort : (SpriteRef → SpriteRef → number) →
                 list SpriteRef → list SpriteRef)
    (w : World) (c : nat) :
  constructed w →
  eventContext (this w) = Some c →
  StronglySorted orderLe (frameCallbacks (contexts w c)) →
  ∃ w', init [] w = Ok w' ∧
        frameCallbacks (contexts w' c)
          ≡ₚ initCallbacks ++ frameCallbacks (contexts w c) ∧
        StronglySorted orderLe (frameCallbacks (contexts w' c)) ∧
        map order initCallbacks = [8; 13; 15; 90; 150; 200] ∧
        (frameCallbacks (contexts w c) = [] →
         frameCallbacks (contexts w' c) = initCallbacks ∧
         ∃ w'', tick arraySort c w' = Ok w'' ∧
                fired (trace w'') =
                  fired (trace w') ++ [8; 13; 15; 90; 150; 200]).
Proof.
  intros Hcons Hc Hsorted.
  destruct (init_constructed w Hcons) as (w' & Hi & [Ha _] & _).
  pose proof Hcons as (_ & _ & _ & _ & Hs).
  destruct (init_registers [] w c Hs Hc) as (w1 & Hi1 & _ & _ & Hcb & _).
  simpl in Hi1. rewrite Hi in Hi1. injection Hi1 as <-.
  exists w'. split; [done|]. rewrite Hcb. split; [|split; [|split]].
  - apply foldl_insertCallback_perm.
  - by apply foldl_insertCallback_sorted.
  - reflexivity.
  - intros Hnil. rewrite Hnil. split; [reflexivity|].
    unfold tick. rewrite Hcb, Hnil.
    destruct (runCallbacks_alive arraySort initCallbacks w' Ha)
      as (w'' & Hr & _ & _ & _ & Hf).
    exists w''. split; [exact Hr|]. by rewrite Hf.
Qed.

Lemma exampleWorld_constructed : constructed exampleWorld.
Proof. unfold constructed; simpl. repeat split; by eexists. Qed.

Lemma init_registers_six_handlers_witness :
  constructed exampleWorld ∧
  eventContext (this exampleWorld) = Some 0%nat ∧
  StronglySorted orderLe (frameCallbacks (contexts exampleWorld 0%nat)) ∧
  ∃ w', init [] exampleWorld = Ok w' ∧
        frameCallbacks (contexts w' 0%nat)
          ≡ₚ initCallbacks ++ frameCallbacks (contexts exampleWorld 0%nat) ∧
        StronglySorted orderLe (frameCallbacks (contexts w' 0%nat)) ∧
        map order initCallbacks = [8; 13; 15; 90; 150; 200] ∧
        (frameCallbacks (contexts exampleWorld 0%nat) = [] →
         frameCallbacks (contexts w' 0%nat) = initCallbacks ∧
         ∃ w'', tick insertionSort 0%nat w' = Ok w'' ∧
                fired (trace w'') =
                  fired (trace w') ++ [8; 13; 15; 90; 150; 200]).
Proof.
  assert (StronglySorted orderLe
            (frameCallbacks (contexts exampleWorld 0%nat))) as Hs.
  { simpl. constructor. }
  split; [exact exampleWorld_constructed|].
  split; [reflexivity|].
  split; [exact Hs|].
  exact (init_registers_six_handlers insertionSort exampleWorld 0%nat
           exampleWorld_constructed eq_refl Hs).
Defined.

(** C2 as the specification states it fails: after [init] on a new
    scene, no callback of the registry has priority 14, one of the
    priorities of the table. *)
Lemma init_registers_nothing_at_14 :
  ∃ w', init [] exampleWorld = Ok w' ∧
        FOLLOW_SPRITE_PRIORITY ∈ specPriorities ∧
        ¬ (∀ p, p ∈ specPriorities →
                ∃ cb, cb ∈ frameCallbacks (contexts w' 0%nat) ∧ order cb = p).
Proof.
  eexists. split; [vm_compute; reflexivity|].
  split; [unfold specPriorities, FOLLOW_SPRITE_PRIORITY; set_solver|].
  intros H. destruct (H 14) as (cb & Hin & Ho).
  { unfold specPriorities; set_solver. }
  apply list_elem_of_In in Hin. simpl in Hin.
  repeat (destruct Hin as [<-|Hin]; [discriminate Ho|]). exact Hin.
Qed.

(** ** The render cache *)

Section Render.

Variable arraySort :
  (SpriteRef → SpriteRef → number) → list SpriteRef → list SpriteRef.

Lemma render_cached (w : World) (img : Image) :
  cachedRender (this w) = Some img → render arraySort w = Ok (img, w).
Proof. intros H. unfold render. by rewrite H. Qed.

(** A [render] call that finds no cached image draws, takes a new image
    of the screen and caches it. *)
Lemma render_fresh (w : World) (l : list SpriteRef) :
  is_Some (background (this w)) → allSprites (this w) = Some l →
  cachedRender (this w) = None →
  ∃ img w' l',
    render arraySort w = Ok (img, w') ∧
    img_ref img = nextImage w ∧ nextImage w' = S (nextImage w) ∧
    allSprites (this w') = Some l' ∧
    trace w' = trace w ++ coreDraw l' ∧
    img_pixels img = drawn (trace w') ∧
    cachedRender (this w') = Some img ∧
    is_Some (background (this w')).
Proof.
  intros Hbg Hl Hcr. unfold render. rewrite Hcr.
  destruct (renderCore_drawable arraySort w l Hbg Hl) as (l' & -> & _).
  simpl. eexists _, _, l'. split; [reflexivity|].
  open_world w. by unfold_world.
Qed.

Lemma render_drawable (w : World) :
  is_Some (background (this w)) → is_Some (allSprites (this w)) →
  imagesAllocated w →
  ∃ img w', render arraySort w = Ok (img, w') ∧
            cachedRender (this w') = Some img ∧
            (img_ref img < nextImage w')%nat ∧
            is_Some (background (this w')) ∧
            is_Some (allSprites (this w')).
Proof.
  intros Hbg [l Hl] Himg.
  destruct (cachedRender (this w)) as [img|] eqn:Hcr.
  - exists img, w. rewrite (render_cached w img Hcr).
    split; [done|]. split; [done|]. split; [by apply Himg|].
    split; [done|by exists l].
  - destruct (render_fresh w l Hbg Hl Hcr)
      as (img & w' & l' & -> & Hr & Hn & Hs & _ & _ & Hc & Hb).
    exists img, w'. split; [done|]. split; [done|].
    split; [rewrite Hr, Hn; lia|]. split; [done|by exists l'].
Qed.

(** C3.  A [render] call that finds a cached image returns it and
    changes nothing.  On a scene that can be drawn, [render] returns an
    image, and a second call with no tick in between returns the same
    image and changes nothing.  The handler of priority 90 then empties
    the cache, whatever it held, and draws; the [render] call that follows
    draws again (its calls are the core draw sequence) and returns a new
    image object, taken of the screen after that draw, which it caches. *)
Theorem render_cached_until_next_frame (w : World) :
  is_Some (background (this w)) → is_Some (allSprites (this w)) →
  imagesAllocated w →
  (∀ v img, cachedRender (this v) = Some img →
            render arraySort v = Ok (img, v)) ∧
  ∃ img w1,
    render arraySort w = Ok (img, w1) ∧
    render arraySort w1 = Ok (img, w1) ∧
    ∃ w2,
      renderSpritesHandler arraySort w1 = Ok w2 ∧
      cachedRender (this w2) = None ∧
      ∃ img' w3 l,
        render arraySort w2 = Ok (img', w3) ∧
        img_ref img' ≠ img_ref img ∧
        allSprites (this w3) = Some l ∧
        trace w3 = trace w2 ++ coreDraw l ∧
        img_pixels img' = drawn (trace w3) ∧
        cachedRender (this w3) = Some img'.
Proof.
  intros Hbg Hs Himg. split; [apply render_cached|].
  destruct (render_drawable w Hbg Hs Himg)
    as (img & w1 & Hr1 & Hc1 & Hlt & Hbg1 & [l1 Hl1]).
  exists img, w1. split; [done|]. split; [by apply render_cached|].
  destruct (renderSpritesHandler_drawable arraySort w1 l1 Hbg1 Hl1)
    as (l2 & Hh & _).
  eexists. split; [exact Hh|].
  match goal with |- cachedRender (this ?v) = None ∧ _ => set (w2 := v) end.
  assert (cachedRender (this w2) = None) as Hc2 by reflexivity.
  assert (is_Some (background (this w2))) as Hbg2.
  { subst w2. clear -Hbg1. open_world w1. by unfold_world. }
  assert (allSprites (this w2) = Some l2) as Hl2 by reflexivity.
  assert (nextImage w2 = nextImage w1) as Hn2 by reflexivity.
  split; [done|].
  destruct (render_fresh w2 l2 Hbg2 Hl2 Hc2)
    as (img' & w3 & l3 & Hr3 & Hi3 & _ & Hs3 & Ht3 & Hp3 & Hc3 & _).
  exists img', w3, l3. repeat split; try done.
  rewrite Hi3, Hn2. lia.
Qed.

End Render.

Lemma exampleInit_init : init [] exampleWorld = Ok exampleInit.
Proof. vm_compute; reflexivity. Qed.

Lemma exampleInit_alive : alive exampleInit.
Proof. unfold alive; vm_compute. repeat split; by eexists. Qed.

Lemma render_cached_until_next_frame_witness :
  is_Some (background (this exampleInit)) ∧
  is_Some (allSprites (this exampleInit)) ∧
  imagesAllocated exampleInit ∧
  ∃ img w1,
    render insertionSort exampleInit = Ok (img, w1) ∧
    render insertionSort w1 = Ok (img, w1) ∧
    ∃ w2,
      renderSpritesHandler insertionSort w1 = Ok w2 ∧
      cachedRender (this w2) = None ∧
      ∃ img' w3 l,
        render insertionSort w2 = Ok (img', w3) ∧
        img_ref img' ≠ img_ref img ∧
        allSprites (this w3) = Some l ∧
        trace w3 = trace w2 ++ coreDraw l ∧
        img_pixels img' = drawn (trace w3) ∧
        cachedRender (this w3) = Some img'.
Proof.
  assert (is_Some (background (this exampleInit))) as Hbg
    by (vm_compute; by eexists).
  assert (is_Some (allSprites (this exampleInit))) as Hs
    by (vm_compute; by eexists).
  assert (imagesAllocated exampleInit) as Hi
    by (intros img Himg; vm_compute in Himg; discriminate Himg).
  split; [exact Hbg|]. split; [exact Hs|]. split; [exact Hi|].
  exact (proj2 (render_cached_until_next_frame insertionSort exampleInit
                  Hbg Hs Hi)).
Defined.

(** ** Draw order *)

Lemma run_adds_order
    (arraySort : (SpriteRef → SpriteRef → number) →
                 list SpriteRef → list SpriteRef)
    (ss l0 : list SpriteRef) (w w' : World) (ids : list number) :
  allSprites (this w) = Some l0 →
  run arraySort (map OpAddSprite ss) w = Ok (w', ids) →
  allSprites (this w') = Some (l0 ++ ss).
Proof.
  revert l0 w ids. induction ss as [|s ss IH]; intros l0 w ids Hl; simpl.
  - intros [= <- _]. by rewrite app_nil_r.
  - unfold addSprite at 1. rewrite Hl. simpl.
    match goal with
    | |- context [run _ _ ?v] => destruct (run arraySort (map OpAddSprite ss) v)
                                   as [[w2 ids2]|] eqn:Hrun; [|done]
    end.
    simpl. intros [= <- _].
    eapply (IH (l0 ++ [s])) in Hrun; [|reflexivity].
    by rewrite Hrun, <- app_assoc.
Qed.

Section DrawOrder.

Variable arraySort :
  (SpriteRef → SpriteRef → number) → list SpriteRef → list SpriteRef.
Hypothesis arraySort_contract : SortContract arraySort.

(** C4, as the code has it.  Without [NeedsSorting], the core draw
    sequence draws the sprites in the order in which [allSprites] holds
    them, and leaves the list as it is; that order is the insertion order
    on a scene that has only seen [addSprite] calls.  With [NeedsSorting],
    and every listed sprite carrying an id, it first sorts the list: the
    list it leaves is a rearrangement of the old one in ascending [z], ties
    broken by ascending [id], and it draws in that order.  The diagnostics
    handler of the frame sets [flags] to 0, and the handlers of [init] that
    run from there to the next physics step (screen update, controller
    state, sprite movement) do not write [flags]. *)
Theorem renderCore_draw_order (w : World) (l : list SpriteRef) :
  is_Some (background (this w)) →
  allSprites (this w) = Some l →
  (flags_and (flags (this w)) NeedsSorting = 0 →
   ∃ w', renderCore arraySort w = Ok w' ∧
         allSprites (this w') = Some l ∧
         spritesDrawn (trace w') = spritesDrawn (trace w) ++ l) ∧
  (flags_and (flags (this w)) NeedsSorting ≠ 0 →
   (∀ s, s ∈ l → ∃ i, id (sprites w s) = Num i) →
   ∃ w' l', renderCore arraySort w = Ok w' ∧
            allSprites (this w') = Some l' ∧
            l' ≡ₚ l ∧
            StronglySorted (zIdLe (sprites w)) l' ∧
            spritesDrawn (trace w') = spritesDrawn (trace w) ++ l') ∧
  (∀ ss v v' ids,
     allSprites (this v) = Some [] →
     run arraySort (map OpAddSprite ss) v = Ok (v', ids) →
     allSprites (this v') = Some ss) ∧
  (∀ v, alive v →
        ∃ v', diagnosticsHandler v = Ok v' ∧ flags (this v') = Some 0 ∧
              flags_and (flags (this v')) NeedsSorting = 0) ∧
  (∀ h v v',
     h ∈ [ScreenUpdateHandler; ControllerStateHandler; MoveSpritesHandler] →
     runHandler arraySort h v = Ok v' → flags (this v') = flags (this v)).
Proof.
  intros Hbg Hl. destruct Hbg as [bg Hbg].
  split; [|split; [|split; [|split]]].
  - intros Hf. rewrite (renderCore_unsorted arraySort w bg l Hbg Hl Hf).
    eexists. split; [reflexivity|].
    open_world w. unfold_world.
    by rewrite spritesDrawn_app, spritesDrawn_coreDraw.
  - intros Hf Hid.
    rewrite (renderCore_sorted arraySort w bg l Hbg Hl Hf).
    destruct arraySort_contract as [Hperm Hsorted].
    set (l' := arraySort (compareSprites (sprites w)) l).
    assert (l' ≡ₚ l) as Hp by apply Hperm.
    exists (emitAll (coreDraw l')
              (set_this (set_allSprites (Some l') (this w)) w)), l'.
    split; [done|]. split; [by open_world w|]. split; [done|]. split.
    + eapply StronglySorted_on;
        [|apply Hsorted; by apply compareSprites_consistent].
      intros a b Ha Hb. apply compareSprites_zIdLe; apply Hid.
      * by rewrite <- Hp.
      * by rewrite <- Hp.
    + clearbody l'. open_world w. unfold_world.
      by rewrite spritesDrawn_app, spritesDrawn_coreDraw.
  - intros ss v v' ids Hv Hrun.
    by apply (run_adds_order arraySort ss [] v v' ids Hv Hrun).
  - intros v Hv. pose proof Hv as (_ & _ & _ & _ & [lv Hlv]).
    destruct (diagnosticsHandler_alive v lv Hv Hlv) as (es & -> & _).
    eexists. split; [reflexivity|]. by open_world v.
  - intros h v v' Hh Hrun.
    apply list_elem_of_In in Hh. simpl in Hh.
    destruct Hh as [<-|[<-|[<-|[]]]]; simpl in Hrun.
    + injection Hrun as <-. by open_world v.
    + destruct (eventContext (this v)) as [c|] eqn:Hc.
      * rewrite (controllerStateHandler_alive v c Hc) in Hrun.
        injection Hrun as <-. by open_world v.
      * unfold controllerStateHandler in Hrun. by rewrite Hc in Hrun.
    + injection Hrun as <-. by open_world v.
Qed.

End DrawOrder.

Lemma renderCore_draw_order_witness :
  SortContract insertionSort ∧
  is_Some (background (this exampleMarked)) ∧
  allSprites (this exampleMarked) = Some [1%nat; 2%nat] ∧
  flags_and (flags (this exampleMarked)) NeedsSorting ≠ 0 ∧
  (∀ s, s ∈ [1%nat; 2%nat] → ∃ i, id (sprites exampleMarked s) = Num i) ∧
  ∃ w' l', renderCore insertionSort exampleMarked = Ok w' ∧
           allSprites (this w') = Some l' ∧
           l' ≡ₚ [1%nat; 2%nat] ∧
           StronglySorted (zIdLe (sprites exampleMarked)) l' ∧
           spritesDrawn (trace w') =
             spritesDrawn (trace exampleMarked) ++ l'.
Proof.
  assert (is_Some (background (this exampleMarked))) as Hbg
    by (vm_compute; by eexists).
  assert (allSprites (this exampleMarked) = Some [1%nat; 2%nat]) as Hl
    by (vm_compute; reflexivity).
  assert (flags_and (flags (this exampleMarked)) NeedsSorting ≠ 0) as Hf
    by (vm_compute; discriminate).
  assert (∀ s, s ∈ [1%nat; 2%nat] →
               ∃ i, id (sprites exampleMarked s) = Num i) as Hid.
  { intros s Hs. apply list_elem_of_In in Hs.
    destruct Hs as [<-|[<-|[]]]; vm_compute; by eexists. }
  split; [exact insertionSort_contract|].
  split; [exact Hbg|]. split; [exact Hl|]. split; [exact Hf|].
  split; [exact Hid|].
  exact (proj1 (proj2 (renderCore_draw_order insertionSort
                         insertionSort_contract exampleMarked
                         [1%nat; 2%nat] Hbg Hl)) Hf Hid).
Defined.

(** C4 as the specification states it fails.  After [init], sprite 1
    ([z] 5) and then sprite 2 ([z] 0) are added, a sort is requested and
    one frame runs.  [NeedsSorting] is then clear, sprite 1 was inserted
    first (it has id 0, sprite 2 has id 1), and the core draw sequence
    draws sprite 2 before sprite 1. *)
Lemma draw_order_after_a_sort :
  ∃ w ids w',
    exampleFrame = Ok (w, ids) ∧
    ids = [Num 0; Num 1] ∧
    id (sprites w 1%nat) = Num 0 ∧ id (sprites w 2%nat) = Num 1 ∧
    flags_and (flags (this w)) NeedsSorting = 0 ∧
    renderCore insertionSort w = Ok w' ∧
    spritesDrawn (trace w') = spritesDrawn (trace w) ++ [2%nat; 1%nat] ∧
    [2%nat; 1%nat] ≠ [1%nat; 2%nat].
Proof.
  eexists _, _, _. split; [vm_compute; reflexivity|].
  split; [reflexivity|]. split; [reflexivity|]. split; [reflexivity|].
  split; [reflexivity|]. split; [vm_compute; reflexivity|].
  split; [vm_compute; reflexivity|]. discriminate.
Qed.

End scene_facts.

(** * Facts about the serial wrapper *)

Module serial_facts.
Import serial.

Lemma list_byte_of_string_app (s t : string) :
  list_byte_of_string (s +:+ t) = list_byte_of_string s ++ list_byte_of_string t.
Proof.
  unfold list_byte_of_string. induction s as [|a s IH]; simpl; [done|].
  by rewrite IH.
Qed.

Lemma string_app_assoc (s t u : string) : (s +:+ t) +:+ u = s +:+ (t +:+ u).
Proof.
  induction s as [|a s IH]; [reflexivity|].
  change (String a ((s +:+ t) +:+ u) = String a (s +:+ (t +:+ u))).
  by rewrite IH.
Qed.

Lemma writeString_device (text : string) (st : State) (ser : Device) :
  device st = Some ser →
  writeString text st =
    set_device (Device_writeBuffer (createBufferFromUTF8 text) ser) st.
Proof. intros H. unfold writeString, writeBuffer. by rewrite H. Qed.

Lemma writeString_twice (t1 t2 : string) (st : State) (ser : Device) :
  device st = Some ser →
  writeString t2 (writeString t1 st) = writeString (t1 +:+ t2) st.
Proof.
  intros H. rewrite (writeString_device t1 st ser H).
  rewrite (writeString_device (t1 +:+ t2) st ser H).
  erewrite writeString_device by reflexivity.
  unfold set_device, Device_writeBuffer, createBufferFromUTF8; simpl.
  by rewrite list_byte_of_string_app, app_assoc.
Qed.

Lemma writeString_NEW_LINE (text : string) (st : State) :
  NEW_LINE (writeString text st) = NEW_LINE st.
Proof. unfold writeString, writeBuffer. by destruct (device st). Qed.

Lemma writeString_keeps_device (text : string) (st : State) :
  is_Some (device st) → is_Some (device (writeString text st)).
Proof.
  intros [ser H]. rewrite (writeString_device text st ser H). by eexists.
Qed.



(** The three examples of the specification, on a device that has sent
    nothing yet. *)
Lemma write_examples :
  (sent <$> device (writeLine "x" exampleIdle))
    = Some [x78; x0d; x0a] ∧
  (sent <$> device (writeValue "temp" 21 exampleIdle))
    = Some [x74; x65; x6d; x70; x3a; x32; x31; x0d; x0a] ∧
  (sent <$> device (writeValue "" 5 exampleIdle))
    = Some [x35; x0d; x0a].
Proof. repeat split. Qed.

(** No function that writes assigns [NEW_LINE]: it holds the value it
    had when the namespace was loaded unless client code assigns it. *)
Lemma write_keeps_NEW_LINE (st : State) (text name : string) (v : Z) :
  NEW_LINE (initial (device st) (millis st) (oversleep st)) = CRLF ∧
  NEW_LINE (writeLine text st) = NEW_LINE st ∧
  NEW_LINE (writeNumber v st) = NEW_LINE st ∧
  NEW_LINE (writeValue name v st) = NEW_LINE st.
Proof.
  split; [reflexivity|].
  unfold writeLine, writeValue, writeNumber.
  destruct (negb _); by rewrite !writeString_NEW_LINE.
Qed.

(** ** The decoder *)

Lemma splitAtDelimiter_app_Some (d : byte) (l m pre post : list byte) :
  splitAtDelimiter d l = Some (pre, post) →
  splitAtDelimiter d (l ++ m) = Some (pre, post ++ m).
Proof.
  revert pre post. induction l as [|b l IH]; intros pre post; simpl; [done|].
  destruct (Byte.eqb b d).
  - by intros [= <- <-].
  - destruct (splitAtDelimiter d l) as [[pre' post']|]; [|done].
    intros [= <- <-]. by rewrite (IH pre' post' eq_refl).
Qed.

Lemma splitAtDelimiter_app_None (d : byte) (l m : list byte) :
  splitAtDelimiter d (l ++ m) = None → splitAtDelimiter d l = None.
Proof.
  destruct (splitAtDelimiter d l) as [[pre post]|] eqn:H; [|done].
  by rewrite (splitAtDelimiter_app_Some d l m pre post H).
Qed.

(** ** Rounds of [readUntil] *)

Lemma decoder_pending (st : State) :
  pending (snd (decoder st)) = pending st ∧
  stream (snd (decoder st)) = stream st ∧
  millis (snd (decoder st)) = millis st ∧
  device (snd (decoder st)) = device st ∧
  is_Some (_decoder (snd (decoder st))).
Proof.
  unfold decoder, stream, pending.
  destruct (_decoder st) as [d|] eqn:H; simpl; rewrite ?H; simpl; eauto.
Qed.

Lemma round_millis (st : State) : millis st + 1 ≤ millis (round st).
Proof.
  unfold round, poll, readBuffer, pause.
  destruct (device st) as [ser|]; simpl.
  - destruct (Device_readBuffer ser) as [b ser']; simpl.
    destruct (oversleep st); simpl; lia.
  - destruct (oversleep st); simpl; lia.
Qed.

Lemma round_stream (st : State) : stream (round st) = stream st.
Proof.
  unfold round, poll, readBuffer, stream, pending, pause.
  destruct (device st) as [ser|] eqn:Hd; simpl.
  - unfold Device_readBuffer. destruct ser as [inc ? ? ? ? ? ?]; simpl.
    destruct inc as [|c inc]; simpl; destruct (oversleep st); simpl;
      rewrite <- ?app_assoc; by rewrite ?app_nil_r.
  - destruct (oversleep st); simpl; rewrite Hd; by rewrite <- app_assoc.
Qed.

Lemma round_no_device (st : State) :
  device st = None →
  device (round st) = None ∧ pending (round st) = pending st.
Proof.
  intros H. unfold round, poll, readBuffer, pending, pause. rewrite H.
  simpl. destruct (oversleep st); simpl; by rewrite app_nil_r.
Qed.

(** Number of chunks that the device will still deliver. *)
Lemma round_incoming (st : State) (ser : Device) (c : Buffer) (cs : list Buffer) :
  device st = Some ser → incoming ser = c :: cs →
  ∃ ser', device (round st) = Some ser' ∧ incoming ser' = cs.
Proof.
  intros H Hi. unfold round, poll, readBuffer, pause. rewrite H.
  unfold Device_readBuffer. rewrite Hi. simpl.
  destruct (oversleep st); simpl; by eexists.
Qed.

Lemma loop_found (fuel : nat) (delimiter : Delimiters) (timeOut : option Z)
    (start : Z) (st : State) (pre post : list byte) :
  splitAtDelimiter delimiter (pending st) = Some (pre, post) →
  readUntil_loop (S fuel) delimiter timeOut start st =
    Some (Buffer_toString pre, set_decoder {| buf := post |} st).
Proof.
  intros H. simpl. unfold UTF8Decoder_decodeUntil.
  unfold pending in H. by rewrite H.
Qed.

Lemma loop_not_found (fuel : nat) (delimiter : Delimiters)
    (timeOut : option Z) (start : Z) (st : State) :
  splitAtDelimiter delimiter (pending st) = None →
  readUntil_loop (S fuel) delimiter timeOut start st =
    if match timeOut with
       | None => true
       | Some t => millis (round st) - start <? t
       end
    then readUntil_loop fuel delimiter timeOut start (round st)
    else Some (EmptyString, round st).
Proof.
  intros H. simpl. unfold UTF8Decoder_decodeUntil.
  unfold pending in H. by rewrite H.
Qed.

(** With a timeout the loop comes to an end. *)
Lemma loop_timeout (delimiter : Delimiters) (T start : Z) (st : State) :
  ∃ fuel s st',
    readUntil_loop fuel delimiter (Some T) start st = Some (s, st') ∧
    (splitAtDelimiter delimiter (stream st) = None →
     s = EmptyString ∧ T ≤ millis st' - start ∧ millis st + 1 ≤ millis st' ∧
     stream st' = stream st).
Proof.
  remember (Z.to_nat (T - (millis st - start))) as n eqn:Hn.
  revert st Hn. induction (lt_wf n) as [n _ IH]. intros st Hn.
  destruct (splitAtDelimiter delimiter (pending st)) as [[pre post]|] eqn:Hp.
  - exists 1%nat, (Buffer_toString pre), (set_decoder {| buf := post |} st).
    split; [by apply loop_found|].
    intros Hs. unfold stream in Hs.
    apply splitAtDelimiter_app_None in Hs. congruence.
  - pose proof (round_millis st) as Hm.
    destruct (Z.ltb_spec (millis (round st) - start) T) as [Hlt|Hge].
    + destruct (IH (Z.to_nat (T - (millis (round st) - start))))
        with (st := round st) as (fuel & s & st' & Hrun & Hs);
        [lia|done|].
      exists (S fuel), s, st'. split.
      * rewrite loop_not_found by done.
        apply Z.ltb_lt in Hlt. by rewrite Hlt.
      * intros Hnone. rewrite <- round_stream in Hnone.
        destruct (Hs Hnone) as (-> & ? & ? & Hst).
        rewrite Hst, round_stream. repeat split; try done. lia.
    + exists 1%nat, EmptyString, (round st). split.
      * rewrite loop_not_found by done.
        apply Z.ltb_ge in Hge. by rewrite Hge.
      * intros _. rewrite round_stream. repeat split; try done; lia.
Qed.

(** Without a timeout the loop runs for ever if the delimiter never
    comes. *)
Lemma loop_forever (fuel : nat) (delimiter : Delimiters) (start : Z)
    (st : State) :
  splitAtDelimiter delimiter (stream st) = None →
  readUntil_loop fuel delimiter None start st = None.
Proof.
  revert st. induction fuel as [|fuel IH]; intros st Hs; [done|].
  rewrite loop_not_found.
  - apply IH. by rewrite round_stream.
  - unfold stream in Hs. by apply splitAtDelimiter_app_None in Hs.
Qed.

(** Without a timeout the loop returns the text before the first
    delimiter of the stream, if there is one. *)
Lemma loop_eventually (delimiter : Delimiters) (start : Z) (st : State)
    (pre post : list byte) :
  splitAtDelimiter delimiter (stream st) = Some (pre, post) →
  ∃ fuel st', readUntil_loop fuel delimiter None start st =
                Some (Buffer_toString pre, st').
Proof.
  remember (match device st with
            | Some ser => length (incoming ser)
            | None => 0%nat
            end) as n eqn:Hn.
  revert st Hn. induction n as [|n IH]; intros st Hn Hs.
  - (* nothing more will come: the delimiter is in the decoder *)
    assert (stream st = pending st) as Hst.
    { unfold stream. destruct (device st) as [ser|]; [|by rewrite app_nil_r].
      destruct (incoming ser); [simpl; by rewrite app_nil_r|done]. }
    rewrite Hst in Hs. exists 1%nat. eexists. by apply loop_found.
  - destruct (splitAtDelimiter delimiter (pending st))
      as [[pre' post']|] eqn:Hp.
    + exists 1%nat. eexists.
      rewrite (loop_found _ _ _ _ _ pre' post' Hp).
      unfold stream in Hs.
      rewrite (splitAtDelimiter_app_Some _ _ _ _ _ Hp) in Hs.
      by injection Hs as -> _.
    + destruct (device st) as [ser|] eqn:Hd; [|done].
      destruct (incoming ser) as [|c cs] eqn:Hi; [done|].
      destruct (round_incoming st ser c cs Hd Hi) as (ser' & Hd' & Hi').
      destruct (IH (round st)) as (fuel & st' & Hrun).
      * rewrite Hd', Hi'. simpl in Hn. by injection Hn.
      * by rewrite round_stream.
      * exists (S fuel), st'. by rewrite loop_not_found.
Qed.

Lemma readUntil_loop_decoder (fuel : nat) (delimiter : Delimiters)
    (timeOut : option Z) (st : State) :
  readUntil fuel delimiter timeOut st =
    readUntil_loop fuel delimiter timeOut (millis st) (snd (decoder st)).
Proof.
  unfold readUntil, decoder. by destruct (_decoder st).
Qed.

Lemma set_decoder_decoder (d : UTF8Decoder) (st : State) :
  set_decoder d (snd (decoder st)) = set_decoder d st.
Proof. unfold decoder. by destruct (_decoder st). Qed.

(** ** Several rounds *)

Lemma rounds_succ_r (k : nat) (st : State) :
  rounds (S k) st = rounds k (round st).
Proof. unfold rounds. by rewrite Nat.iter_succ_r. Qed.

Lemma round_pending (st : State) :
  pending (round st) = pending st ++ fst (readBuffer st).
Proof.
  unfold round, poll, readBuffer, pending, pause.
  destruct (device st) as [ser|]; simpl.
  - destruct (Device_readBuffer ser) as [b ser']; simpl.
    by destruct (oversleep st).
  - by destruct (oversleep st).
Qed.

Lemma rounds_millis (j k : nat) (st : State) :
  (j ≤ k)%nat → millis (rounds j st) ≤ millis (rounds k st).
Proof.
  induction 1 as [|k _ IH]; [lia|].
  pose proof (round_millis (rounds k st)) as Hr.
  change (round (rounds k st)) with (rounds (S k) st) in Hr. lia.
Qed.

Lemma rounds_stream (k : nat) (st : State) : stream (rounds k st) = stream st.
Proof.
  induction k as [|k IH]; [done|].
  change (rounds (S k) st) with (round (rounds k st)).
  by rewrite round_stream.
Qed.

(** The loop returns the text in the round in which the decoder first
    holds the delimiter, if the timeout has not elapsed in a round
    before. *)
Lemma loop_rounds_found (delimiter : Delimiters) (timeOut : option Z)
    (start : Z) (k : nat) :
  ∀ (st : State) (fuel : nat) (pre post : list byte),
    splitAtDelimiter delimiter (pending (rounds k st)) = Some (pre, post) →
    (∀ j, (j < k)%nat →
          splitAtDelimiter delimiter (pending (rounds j st)) = None) →
    (∀ j, (1 ≤ j ≤ k)%nat →
          match timeOut with
          | None => True
          | Some T => millis (rounds j st) - start < T
          end) →
    readUntil_loop (S k + fuel) delimiter timeOut start st =
      Some (Buffer_toString pre, set_decoder {| buf := post |} (rounds k st)).
Proof.
  induction k as [|k IH]; intros st fuel pre post Hk Hnone Htime.
  - by apply loop_found.
  - change (S (S k) + fuel)%nat with (S (S k + fuel)).
    rewrite loop_not_found by (apply (Hnone 0%nat); lia).
    assert (match timeOut with
            | None => true
            | Some t => millis (round st) - start <? t
            end = true) as ->.
    { pose proof (Htime 1%nat ltac:(lia)) as H1.
      destruct timeOut as [T|]; [|done]. by apply Z.ltb_lt. }
    rewrite rounds_succ_r in Hk |- *. apply IH; [exact Hk| |].
    + intros j Hj. rewrite <- rounds_succ_r. apply Hnone. lia.
    + intros j Hj. rewrite <- rounds_succ_r. apply Htime. lia.
Qed.

(** The loop gives up after the first pause at whose end the timeout has
    elapsed, whatever the poll of that round has added. *)
Lemma loop_rounds_timeout (delimiter : Delimiters) (T start : Z) (k : nat) :
  ∀ (st : State) (fuel : nat),
    (∀ j, (j ≤ k)%nat →
          splitAtDelimiter delimiter (pending (rounds j st)) = None) →
    (∀ j, (1 ≤ j ≤ k)%nat → millis (rounds j st) - start < T) →
    T ≤ millis (rounds (S k) st) - start →
    readUntil_loop (S k + fuel) delimiter (Some T) start st =
      Some (EmptyString, rounds (S k) st).
Proof.
  induction k as [|k IH]; intros st fuel Hnone Htime Hout.
  - change (1 + fuel)%nat with (S fuel).
    rewrite loop_not_found by (apply (Hnone 0%nat); lia).
    change (rounds 1 st) with (round st) in Hout |- *.
    apply Z.ltb_ge in Hout. by rewrite Hout.
  - change (S (S k) + fuel)%nat with (S (S k + fuel)).
    rewrite loop_not_found by (apply (Hnone 0%nat); lia).
    pose proof (Htime 1%nat ltac:(lia)) as H1.
    change (rounds 1 st) with (round st) in H1.
    apply Z.ltb_lt in H1. rewrite H1.
    rewrite rounds_succ_r in Hout |- *. apply IH; [| |exact Hout].
    + intros j Hj. rewrite <- rounds_succ_r. apply Hnone. lia.
    + intros j Hj. rewrite <- rounds_succ_r. apply Htime. lia.
Qed.

(** With a timeout there is a round in which the decoder holds the
    delimiter in time, or a round at the end of which the timeout has
    elapsed. *)
Lemma rounds_outcome (delimiter : Delimiters) (T start : Z) (st : State) :
  ∃ k : nat,
    (∀ j, (j < k)%nat →
          splitAtDelimiter delimiter (pending (rounds j st)) = None) ∧
    (∀ j, (1 ≤ j ≤ k)%nat → millis (rounds j st) - start < T) ∧
    (is_Some (splitAtDelimiter delimiter (pending (rounds k st))) ∨
     (splitAtDelimiter delimiter (pending (rounds k st)) = None ∧
      T ≤ millis (rounds (S k) st) - start)).
Proof.
  remember (Z.to_nat (T - (millis st - start))) as n eqn:Hn.
  revert st Hn. induction (lt_wf n) as [n _ IH]. intros st Hn.
  destruct (splitAtDelimiter delimiter (pending st)) as [p|] eqn:Hp.
  - exists 0%nat. split; [intros j Hj; lia|]. split; [intros j Hj; lia|].
    left. change (rounds 0 st) with st. by rewrite Hp.
  - pose proof (round_millis st) as Hm.
    destruct (Z.ltb_spec (millis (round st) - start) T) as [Hlt|Hge].
    + destruct (IH (Z.to_nat (T - (millis (round st) - start))))
        with (st := round st) as (k & Hnone & Htime & Hend); [lia|done|].
      exists (S k). split; [|split].
      * intros [|j] Hj; [exact Hp|]. rewrite rounds_succ_r. apply Hnone. lia.
      * intros [|[|j]] Hj; [lia|exact Hlt|].
        rewrite rounds_succ_r. apply Htime. lia.
      * rewrite (rounds_succ_r (S k)), (rounds_succ_r k). exact Hend.
    + exists 0%nat. split; [intros j Hj; lia|]. split; [intros j Hj; lia|].
      right. split; [exact Hp|exact Hge].
Qed.

(** C7, as the code has it.  The loop of [readUntil] looks for the
    delimiter at the start of each round.
    - If the decoder holds the delimiter when [readUntil] is called, the
      text before it is returned at once, with or without a timeout.
    - A round that does not find it reads the receive buffer once, adds
      the bytes to the decoder and pauses; the clock advances by 1 at
      least.  If less than the timeout has then elapsed, the next round
      starts; otherwise [readUntil] returns the empty string without
      looking at the bytes just added, which stay in the decoder.
    - Each round adds to the decoder what one [readBuffer] call gives.
      If the decoder holds the delimiter for the first time after [k]
      rounds, and [k] is 0 or less than the timeout has elapsed at the end
      of round [k], [readUntil] returns the text before the delimiter and
      leaves what follows it in the decoder; this holds with and without
      a timeout.
    - If the decoder does not hold the delimiter in the rounds up to [k],
      less than the timeout has elapsed at the end of round [k] (or [k]
      is 0), and the timeout has elapsed at the end of the next round,
      [readUntil] returns the empty string and the state that this round
      leaves, even if its poll has delivered the delimiter.
    - With a timeout one of these two cases occurs.
    - With a timeout [readUntil] always returns; if the delimiter is
      neither in the decoder nor in what the device delivers, it returns
      the empty string, once the timeout has elapsed.
    - Without a timeout, [readUntil] returns the text before the first
      delimiter of what the decoder holds and the device delivers, and it
      never returns if there is no delimiter. *)
Theorem readUntil_rounds (delimiter : Delimiters) (st : State) :
  (∀ pre post timeOut fuel,
     splitAtDelimiter delimiter (pending st) = Some (pre, post) →
     readUntil (S fuel) delimiter timeOut st =
       Some (Buffer_toString pre, set_decoder {| buf := post |} st)) ∧
  (splitAtDelimiter delimiter (pending st) = None →
   let st1 := round (snd (decoder st)) in
   millis st + 1 ≤ millis st1 ∧
   stream st1 = stream st ∧
   ∀ T fuel,
     (millis st1 - millis st < T →
      readUntil (S fuel) delimiter (Some T) st =
        readUntil_loop fuel delimiter (Some T) (millis st) st1) ∧
     (T ≤ millis st1 - millis st →
      readUntil (S fuel) delimiter (Some T) st = Some (EmptyString, st1))) ∧
  (∀ k,
     pending (rounds (S k) (snd (decoder st))) =
       pending (rounds k (snd (decoder st))) ++
       fst (readBuffer (rounds k (snd (decoder st)))) ∧
     millis (rounds k (snd (decoder st))) + 1 ≤
       millis (rounds (S k) (snd (decoder st))) ∧
     stream (rounds k (snd (decoder st))) = stream st) ∧
  (∀ k pre post timeOut fuel,
     splitAtDelimiter delimiter (pending (rounds k (snd (decoder st)))) =
       Some (pre, post) →
     (∀ j, (j < k)%nat →
        splitAtDelimiter delimiter (pending (rounds j (snd (decoder st)))) =
          None) →
     (k = 0%nat ∨
      match timeOut with
      | None => True
      | Some T => millis (rounds k (snd (decoder st))) - millis st < T
      end) →
     readUntil (S k + fuel) delimiter timeOut st =
       Some (Buffer_toString pre,
             set_decoder {| buf := post |} (rounds k (snd (decoder st))))) ∧
  (∀ k T fuel,
     (∀ j, (j ≤ k)%nat →
        splitAtDelimiter delimiter (pending (rounds j (snd (decoder st)))) =
          None) →
     (k = 0%nat ∨ millis (rounds k (snd (decoder st))) - millis st < T) →
     T ≤ millis (rounds (S k) (snd (decoder st))) - millis st →
     readUntil (S k + fuel) delimiter (Some T) st =
       Some (EmptyString, rounds (S k) (snd (decoder st)))) ∧
  (∀ T, ∃ k : nat,
     (∀ j, (j < k)%nat →
        splitAtDelimiter delimiter (pending (rounds j (snd (decoder st)))) =
          None) ∧
     (k = 0%nat ∨ millis (rounds k (snd (decoder st))) - millis st < T) ∧
     (is_Some
        (splitAtDelimiter delimiter (pending (rounds k (snd (decoder st))))) ∨
      (splitAtDelimiter delimiter (pending (rounds k (snd (decoder st)))) =
         None ∧
       T ≤ millis (rounds (S k) (snd (decoder st))) - millis st))) ∧
  (∀ T, ∃ fuel s st',
     readUntil fuel delimiter (Some T) st = Some (s, st') ∧
     (splitAtDelimiter delimiter (stream st) = None →
      s = EmptyString ∧ T ≤ millis st' - millis st)) ∧
  (∀ pre post,
     splitAtDelimiter delimiter (stream st) = Some (pre, post) →
     ∃ fuel st', readUntil fuel delimiter None st =
                   Some (Buffer_toString pre, st')) ∧
  (splitAtDelimiter delimiter (stream st) = None →
   ∀ fuel, readUntil fuel delimiter None st = None).
Proof.
  destruct (decoder_pending st) as (Hp & Hs & Hm & Hd & _).
  assert (∀ j k T,
            (k = 0%nat ∨ millis (rounds k (snd (decoder st))) - millis st < T) →
            (1 ≤ j ≤ k)%nat →
            millis (rounds j (snd (decoder st))) - millis st < T) as Hmono.
  { intros j k T [->|Hk] Hj; [lia|].
    pose proof (rounds_millis j k (snd (decoder st)) ltac:(lia)). lia. }
  repeat match goal with |- _ ∧ _ => split end.
  - intros pre post timeOut fuel H.
    rewrite readUntil_loop_decoder, <- (set_decoder_decoder _ st).
    apply loop_found. by rewrite Hp.
  - intros H st1.
    pose proof (round_millis (snd (decoder st))) as Hr. rewrite Hm in Hr.
    split; [exact Hr|]. split; [subst st1; by rewrite round_stream|].
    intros T fuel. rewrite readUntil_loop_decoder.
    rewrite loop_not_found by (by rewrite Hp). fold st1. split.
    + intros Hlt. apply Z.ltb_lt in Hlt. by rewrite Hlt.
    + intros Hge. apply Z.ltb_ge in Hge. by rewrite Hge.
  - intros k. split; [|split].
    + apply (round_pending (rounds k (snd (decoder st)))).
    + apply (round_millis (rounds k (snd (decoder st)))).
    + by rewrite rounds_stream.
  - intros k pre post timeOut fuel Hk Hnone Htime.
    rewrite readUntil_loop_decoder.
    apply loop_rounds_found; [exact Hk|exact Hnone|].
    intros j Hj. destruct timeOut as [T|]; [|done].
    by apply (Hmono j k T).
  - intros k T fuel Hnone Htime Hout.
    rewrite readUntil_loop_decoder.
    apply loop_rounds_timeout; [exact Hnone| |exact Hout].
    intros j Hj. by apply (Hmono j k T).
  - intros T.
    destruct (rounds_outcome delimiter T (millis st) (snd (decoder st)))
      as (k & Hnone & Htime & Hend).
    exists k. split; [exact Hnone|]. split; [|exact Hend].
    destruct k as [|k]; [by left|right]. apply Htime. lia.
  - intros T.
    destruct (loop_timeout delimiter T (millis st) (snd (decoder st)))
      as (fuel & s & st' & Hrun & Hnone).
    exists fuel, s, st'. rewrite readUntil_loop_decoder. split; [done|].
    intros H. rewrite <- Hs in H. by destruct (Hnone H) as (-> & ? & _).
  - intros pre post H. rewrite <- Hs in H.
    destruct (loop_eventually delimiter (millis st) _ pre post H)
      as (fuel & st' & Hrun).
    exists fuel, st'. by rewrite readUntil_loop_decoder.
  - intros H fuel. rewrite readUntil_loop_decoder.
    apply loop_forever. by rewrite Hs.
Qed.

(** On [exampleLine] the first poll, at time 0, delivers [a] and a line
    feed.  With a timeout of 2 the pause of that round ends at time 1, the
    second round finds the line feed, and [readUntil] returns [a] and
    leaves the decoder empty. *)
Lemma readUntil_rounds_witness :
  splitAtDelimiter LF (pending (rounds 1 (snd (decoder exampleLine)))) =
    Some ([x61], []) ∧
  splitAtDelimiter LF (pending (rounds 0 (snd (decoder exampleLine)))) =
    None ∧
  millis (rounds 1 (snd (decoder exampleLine))) - millis exampleLine < 2 ∧
  readUntil 2 LF (Some 2) exampleLine =
    Some (Buffer_toString [x61],
          set_decoder {| buf := [] |}
            (rounds 1 (snd (decoder exampleLine)))).
Proof.
  split; [reflexivity|]. split; [reflexivity|]. split; [reflexivity|].
  refine (proj1 (proj2 (proj2 (proj2 (readUntil_rounds LF exampleLine))))
            1%nat [x61] [] (Some 2) 0%nat eq_refl _ _).
  - intros [|j] Hj; [reflexivity|lia].
  - right. reflexivity.
Defined.

(** C7 as the specification states it fails.  The device holds a whole
    line, [a] and a line feed, which the first [readBuffer] call, at time
    0, delivers; with a timeout of 1 [readUntil] returns the empty string,
    not [a], and the line is left in the decoder. *)
Lemma readUntil_misses_the_last_poll :
  ∃ st',
    fst (readBuffer exampleLine) = [x61; LF] ∧
    millis exampleLine = 0 ∧
    readUntil 5 LF (Some 1) exampleLine = Some (EmptyString, st') ∧
    pending st' = [x61; LF] ∧
    millis st' = 1 ∧
    EmptyString ≠ Buffer_toString [x61].
Proof.
  eexists. split; [reflexivity|]. split; [reflexivity|].
  split; [vm_compute; reflexivity|]. split; [reflexivity|].
  split; [reflexivity|]. discriminate.
Qed.

(** ** Without a device *)

Section NoDevice.

Variable DEVICE_NOT_SUPPORTED : Z.
Variable Delimiters_NewLine : Delimiters.

(** The documentation of [read]: negative if error. *)
Hypothesis DEVICE_NOT_SUPPORTED_negative : DEVICE_NOT_SUPPORTED < 0.

(** C9, as the code has it.  Without a device, and with nothing in the
    decoder: [read] returns the error code [DEVICE_NOT_SUPPORTED], which is
    not 0; [readBuffer] returns the empty buffer and [readString] the empty
    string; [readUntil] with a timeout returns the empty string;
    [readUntil] without a timeout, and so [readLine], never returns; the
    write and configuration functions leave the state as it is.  No
    function of the namespace can fail: each one is total. *)
Theorem no_device_degrades (st : State) :
  device st = None →
  pending st = [] →
  (read DEVICE_NOT_SUPPORTED st = (DEVICE_NOT_SUPPORTED, st) ∧
   DEVICE_NOT_SUPPORTED ≠ 0) ∧
  readBuffer st = ([], st) ∧
  (fst (readString st) = EmptyString ∧
   device (snd (readString st)) = None ∧ pending (snd (readString st)) = []) ∧
  (∀ delimiter T, ∃ fuel st',
     readUntil fuel delimiter (Some T) st = Some (EmptyString, st') ∧
     T ≤ millis st' - millis st) ∧
  (∀ delimiter fuel, readUntil fuel delimiter None st = None) ∧
  (∀ fuel, readLine Delimiters_NewLine fuel st = None) ∧
  (∀ b, writeBuffer b st = st) ∧
  (∀ text, writeString text st = st) ∧
  (∀ text, writeLine text st = st) ∧
  (∀ v, writeNumber v st = st) ∧
  (∀ name v, writeValue name v st = st) ∧
  (∀ size, setRxBufferSize size st = st) ∧
  (∀ size, setTxBufferSize size st = st) ∧
  (∀ rate, setBaudRate rate st = st) ∧
  (∀ tx rx rate, redirect tx rx rate st = st) ∧
  (∀ event h, onEvent event h st = st) ∧
  attachToConsole st = st ∧
  (∀ priority text, logListener priority text st = st).
Proof.
  intros Hd Hp.
  assert (∀ b, writeBuffer b st = st) as Hwb.
  { intros b. unfold writeBuffer. by rewrite Hd. }
  assert (∀ text, writeString text st = st) as Hws.
  { intros text. apply Hwb. }
  assert (∀ text, writeLine text st = st) as Hwl.
  { intros text. unfold writeLine. by rewrite !Hws. }
  assert (∀ d, splitAtDelimiter d (stream st) = None) as Hnone.
  { intros d. unfold stream. by rewrite Hp, Hd. }
  repeat match goal with |- _ ∧ _ => split end; try done.
  - unfold read. by rewrite Hd.
  - lia.
  - unfold readBuffer. by rewrite Hd.
  - unfold readString, readBuffer, decoder. rewrite Hd.
    unfold pending in Hp.
    destruct (_decoder st) as [d|]; simpl in *; by rewrite ?Hp.
  - unfold readString, readBuffer, decoder. rewrite Hd.
    by destruct (_decoder st).
  - unfold readString, readBuffer, decoder. rewrite Hd.
    unfold pending in *.
    destruct (_decoder st) as [d|]; simpl in *; by rewrite ?Hp.
  - intros delimiter T.
    destruct (decoder_pending st) as (_ & Hs & Hm & _).
    destruct (loop_timeout delimiter T (millis st) (snd (decoder st)))
      as (fuel & s & st' & Hrun & Hres).
    destruct Hres as (-> & Hle & _); [by rewrite Hs|].
    exists fuel, st'. by rewrite readUntil_loop_decoder.
  - intros delimiter fuel. rewrite readUntil_loop_decoder.
    apply loop_forever. destruct (decoder_pending st) as (_ & -> & _).
    apply Hnone.
  - intros fuel. unfold readLine. rewrite readUntil_loop_decoder.
    apply loop_forever. destruct (decoder_pending st) as (_ & -> & _).
    apply Hnone.
  - intros v. apply Hws.
  - intros name v. unfold writeValue, writeNumber.
    destruct (negb _); by rewrite !Hws.
  - intros size. unfold setRxBufferSize. by rewrite Hd.
  - intros size. unfold setTxBufferSize. by rewrite Hd.
  - intros rate. unfold setBaudRate. by rewrite Hd.
  - intros tx rx rate. unfold redirect. by rewrite Hd.
  - intros event h. unfold onEvent. by rewrite Hd.
  - unfold attachToConsole. by rewrite Hd.
  - intros priority text. unfold logListener.
    destruct priority; by rewrite ?Hws.
Qed.

End NoDevice.

Lemma no_device_degrades_witness :
  -1002 < 0 ∧
  device exampleNoDevice = None ∧
  pending exampleNoDevice = [] ∧
  (read (-1002) exampleNoDevice = (-1002, exampleNoDevice) ∧ -1002 ≠ 0) ∧
  readBuffer exampleNoDevice = ([], exampleNoDevice).
Proof.
  assert (-1002 < 0) as Hneg by reflexivity.
  split; [exact Hneg|]. split; [reflexivity|]. split; [reflexivity|].
  pose proof (no_device_degrades (-1002) LF Hneg exampleNoDevice
                eq_refl eq_refl) as H.
  split; [exact (proj1 H)|exact (proj1 (proj2 H))].
Defined.

(** C9 as the specification states it fails.  Without a device, [read]
    does not return zero: it returns [DEVICE_NOT_SUPPORTED] (taken at
    -1002, its value in the DAL).  And [readLine] does not return. *)
Lemma read_without_device_is_not_zero :
  device exampleNoDevice = None ∧
  fst (read (-1002) exampleNoDevice) = -1002 ∧
  fst (read (-1002) exampleNoDevice) ≠ 0 ∧
  (∀ fuel, readLine LF fuel exampleNoDevice = None).
Proof.
  split; [reflexivity|]. split; [reflexivity|]. split; [discriminate|].
  intros fuel. unfold readLine. rewrite readUntil_loop_decoder.
  by apply loop_forever.
Qed.

End serial_facts.

(** * More facts about the scene *)

Module scene_more.
Import scene scene_facts.

Lemma spritesUpdated_app (t1 t2 : list Event) :
  spritesUpdated (t1 ++ t2) = spritesUpdated t1 ++ spritesUpdated t2.
Proof.
  induction t1 as [|e t1 IH]; simpl; [done|].
  destruct e; simpl; by rewrite ?IH.
Qed.

Lemma spritesUpdated_SpriteUpdate (l : list SpriteRef) :
  spritesUpdated (map SpriteUpdate l) = l.
Proof. induction l; simpl; congruence. Qed.

Lemma spritesUpdated_SpriteDraw (l : list SpriteRef) :
  spritesUpdated (map SpriteDraw l) = [].
Proof. induction l; simpl; auto. Qed.

Lemma spritesDrawn_SpriteUpdate (l : list SpriteRef) :
  spritesDrawn (map SpriteUpdate l) = [].
Proof. induction l; simpl; auto. Qed.

Section Frame.

Variable arraySort :
  (SpriteRef → SpriteRef → number) → list SpriteRef → list SpriteRef.

Lemma diagnosticsHandler_explicit (w : World) (l : list SpriteRef) :
  alive w → allSprites (this w) = Some l →
  diagnosticsHandler w =
    Ok (emitAll (diagnosticsCalls (game w) (length l)
                 ++ [ConsoleOverlayDraw; PowerCheckDeepSleep])
          (set_this (set_flags (Some 0) (this w)) w)).
Proof.
  intros ([c Hc] & _ & [pe Hpe] & [cam Hcam] & _) Hl.
  open_world w. simplify_eq. unfold diagnosticsHandler, diagnosticsCalls.
  match goal with g : Game |- _ => destruct g as [st db os ls] end.
  destruct st, os, db; unfold_world; by rewrite <- ?app_assoc.
Qed.

Lemma diagnosticsCalls_no_sprite (g : Game) (n : nat) :
  spritesDrawn (diagnosticsCalls g n) = [] ∧
  spritesUpdated (diagnosticsCalls g n) = [].
Proof.
  unfold diagnosticsCalls. by destruct (stats g && onStats g), (debug g).
Qed.

(** One frame through the handlers of [init], on a live scene: the
    world it leaves and the calls it makes. *)
Lemma frame_explicit (w : World) (c : nat) (l : list SpriteRef) :
  alive w → eventContext (this w) = Some c → allSprites (this w) = Some l →
  ∃ l' w',
    runCallbacks arraySort initCallbacks w = Ok w' ∧
    this w' =
      set_flags (Some 0)
        (set_cachedRender None
           (set_allSprites (Some l')
              (set_millis (_millis (this w) + deltaTimeMillis (contexts w c))
                 (this w)))) ∧
    trace w' =
      trace w ++ frameUpdates l
      ++ frameDraws l' (diagnosticsCalls (game w) (length l')) ∧
    contexts w' = contexts w ∧ sprites w' = sprites w ∧
    nextImage w' = nextImage w ∧ game w' = game w ∧
    (if decide (flags_and (flags (this w)) NeedsSorting = 0) then l' = l
     else l' = arraySort (compareSprites (sprites w)) l).
Proof.
  intros Ha Hc Hl. pose proof Ha as (_ & Hbg & _).
  unfold initCallbacks. simpl runCallbacks.
  rewrite (controllerStateHandler_alive w c Hc). simpl.
  match goal with |- context [physicsHandler ?v] => set (w2 := v) end.
  assert (alive w2) as Ha2 by exact Ha.
  assert (allSprites (this w2) = Some l) as Hl2 by exact Hl.
  rewrite (physicsHandler_alive w2 l Ha2 Hl2). simpl.
  match goal with |- context [renderSpritesHandler _ ?v] => set (w3 := v) end.
  assert (is_Some (background (this w3))) as Hbg3 by exact Hbg.
  assert (allSprites (this w3) = Some l) as Hl3 by exact Hl.
  destruct (renderSpritesHandler_drawable arraySort w3 l Hbg3 Hl3)
    as (l' & -> & Hl'). simpl.
  change (flags (this w3)) with (flags (this w)) in Hl'.
  change (sprites w3) with (sprites w) in Hl'.
  match goal with |- context [diagnosticsHandler ?v] => set (w4 := v) end.
  assert (alive w4) as Ha4.
  { destruct Ha as (H1 & H2 & H3 & H4 & H5).
    repeat split; [exact H1|exact H2|exact H3|exact H4|by exists l']. }
  assert (allSprites (this w4) = Some l') as Hl4 by reflexivity.
  rewrite (diagnosticsHandler_explicit w4 l' Ha4 Hl4). simpl.
  exists l'. eexists. split; [reflexivity|].
  split; [reflexivity|]. split; [|by repeat split].
  transitivity
    ((((((trace w
         ++ [EnablePerfCounter "controller_update"; ControllerUpdate])
        ++ [ControllerMoveSprites])
       ++ [EnablePerfCounter "physics and collisions"; PhysicsMove;
           CameraUpdate] ++ map SpriteUpdate l)
      ++ EnablePerfCounter "sprite_draw" :: coreDraw l')
     ++ (diagnosticsCalls (game w) (length l')
         ++ [ConsoleOverlayDraw; PowerCheckDeepSleep]))
    ++ [ScreenUpdate]); [reflexivity|].
  unfold frameUpdates, frameDraws. rewrite <- !app_assoc. simpl.
  by rewrite <- ?app_assoc.
Qed.

(** What a frame handler may do to the sprite list and to the sprites:
    nothing to the sprites, and nothing to the list but the sort. *)
Lemma runHandler_sprites (h : FrameHandler) (w : World) (l : list SpriteRef) :
  alive w → allSprites (this w) = Some l →
  ∃ w' l', runHandler arraySort h w = Ok w' ∧
           sprites w' = sprites w ∧
           allSprites (this w') = Some l' ∧
           (l' = l ∨ l' = arraySort (compareSprites (sprites w)) l).
Proof.
  intros Ha Hl. pose proof Ha as ([c Hc] & Hbg & Hpe & Hcam & _).
  destruct h; simpl.
  - rewrite (controllerStateHandler_alive w c Hc).
    eexists _, l. split; [reflexivity|]. open_world w. by auto.
  - eexists _, l. split; [reflexivity|]. open_world w. by auto.
  - rewrite (physicsHandler_alive w l Ha Hl).
    eexists _, l. split; [reflexivity|]. open_world w. by auto.
  - destruct (renderSpritesHandler_drawable arraySort w l Hbg Hl)
      as (l' & -> & Hl').
    eexists _, l'. split; [reflexivity|].
    split; [by open_world w|]. split; [by open_world w|].
    destruct (decide _); by auto.
  - rewrite (diagnosticsHandler_explicit w l Ha Hl).
    eexists _, l. split; [reflexivity|]. open_world w. by auto.
  - eexists _, l. split; [reflexivity|]. open_world w. by auto.
  - eexists _, l. split; [reflexivity|]. open_world w. by auto.
Qed.

Hypothesis arraySort_contract : SortContract arraySort.

Lemma registered_change (n : Z) (w w' : World) (l l' : list SpriteRef) :
  registered n w → allSprites (this w) = Some l →
  alive w' → spriteNextId (this w') = spriteNextId (this w) →
  (∀ s, id (sprites w' s) = id (sprites w s)) →
  allSprites (this w') = Some l' → (∀ s, s ∈ l' → s ∈ l) →
  registered n w'.
Proof.
  intros (Hn & [_ Hnext] & l0 & Hl0 & Hbelow & Hinj) Hl Ha' Hnext' Hid Hl' Hsub.
  rewrite Hl in Hl0. injection Hl0 as <-.
  split; [done|]. split; [split; [done|by rewrite Hnext']|].
  exists l'. split; [done|]. split.
  - intros s Hs. rewrite Hid. by apply Hbelow, Hsub.
  - intros a b Ha Hb. rewrite !Hid. apply Hinj; by apply Hsub.
Qed.

Lemma runHandler_registered (h : FrameHandler) (n : Z) (w : World) :
  registered n w →
  ∃ w', runHandler arraySort h w = Ok w' ∧ registered n w'.
Proof.
  intros Hr. pose proof Hr as (_ & [Ha _] & l & Hl & _).
  destruct (runHandler_alive arraySort h w Ha) as (w' & Hrun & Ha' & Hn' & _).
  destruct (runHandler_sprites h w l Ha Hl) as (w'' & l' & Hrun' & Hs & Hl' & Hor).
  rewrite Hrun in Hrun'. injection Hrun' as <-.
  exists w'. split; [done|].
  eapply (registered_change n w w' l l');
    [exact Hr|exact Hl|exact Ha'|exact Hn'| |exact Hl'|].
  - intros s. by rewrite Hs.
  - intros s Hs'. destruct Hor as [->| ->]; [done|].
    by rewrite (proj1 arraySort_contract) in Hs'.
Qed.

Lemma runCallbacks_registered (cbs : list FrameCallback) (n : Z) (w : World) :
  registered n w →
  ∃ w', runCallbacks arraySort cbs w = Ok w' ∧ registered n w'.
Proof.
  revert w. induction cbs as [|cb cbs IH]; intros w Hr; simpl.
  - by exists w.
  - destruct (runHandler_registered (handler cb) n w Hr) as (w1 & -> & H1).
    simpl. by apply IH.
Qed.

Lemma removeElement_subset (s x : SpriteRef) (l : list SpriteRef) :
  x ∈ removeElement s l → x ∈ l.
Proof.
  induction l as [|y l IH]; simpl; [done|].
  destruct (Nat.eqb y s); [by right|].
  intros H. apply elem_of_cons in H as [->|H]; [by left|right; by apply IH].
Qed.

Lemma addSprite_registered (s : SpriteRef) (n : Z) (w : World) :
  registered n w →
  ∃ w', addSprite s w = Ok w' ∧ registered (n + 1) w' ∧
        id (sprites w' s) = Num n.
Proof.
  intros (Hn & Hc & l & Hl & Hbelow & Hinj).
  destruct (addSprite_counter s n w Hc) as (w' & Hadd & Hc' & Hid).
  exists w'. split; [done|]. split; [|done].
  assert (allSprites (this w') = Some (l ++ [s]) ∧
          ∀ x, x ≠ s → sprites w' x = sprites w x) as [Hl' Hother].
  { clear -Hadd Hl. unfold addSprite in Hadd. rewrite Hl in Hadd.
    simpl in Hadd. unfold mret, result_ret in Hadd. injection Hadd as <-.
    split; [reflexivity|]. intros x Hx. simpl.
    by rewrite fn_lookup_insert_ne. }
  split; [lia|]. split; [done|]. exists (l ++ [s]). split; [done|].
  assert (∀ x, x ∈ l ++ [s] →
               (x = s ∧ id (sprites w' x) = Num n) ∨
               (x ≠ s ∧ x ∈ l ∧ ∃ i, id (sprites w' x) = Num i ∧ 0 ≤ i < n))
    as Hcases.
  { intros x Hx. destruct (decide (x = s)) as [->|Hne]; [by left|right].
    apply elem_of_app in Hx as [Hxl|Hxs];
      [|apply elem_of_cons in Hxs as [?|Hnil];
        [done|by apply elem_of_nil in Hnil]].
    split; [done|]. split; [done|]. rewrite Hother by done. by apply Hbelow. }
  split.
  - intros x Hx.
    destruct (Hcases x Hx) as [[-> Hx']|(_ & _ & i & Hi & ?)].
    + exists n. split; [done|lia].
    + exists i. split; [done|lia].
  - intros a b Ha Hb Hab.
    destruct (Hcases a Ha) as [[-> Ha']|(Hna & Hla & i & Hi & ?)],
             (Hcases b Hb) as [[-> Hb']|(Hnb & Hlb & j & Hj & ?)]; try done.
    + rewrite Ha', Hj in Hab. injection Hab as ->. lia.
    + rewrite Hi, Hb' in Hab. injection Hab as ->. lia.
    + apply Hinj; try done. by rewrite <- !Hother.
Qed.

Lemma step_registered (op : Op) (n : Z) (w : World) :
  registered n w →
  ∃ w', step arraySort op w = Ok w' ∧
        match op with
        | OpAddSprite s => registered (n + 1) w' ∧ id (sprites w' s) = Num n
        | _ => registered n w'
        end.
Proof.
  intros Hr. pose proof Hr as (Hn & Hc & l & Hl & Hbelow & Hinj).
  pose proof Hc as [Ha Hnext].
  destruct op as [s|s|s v| | |c]; simpl.
  - by apply addSprite_registered.
  - destruct (removeSprite_counter s n w Hc) as (w' & Hrm & [Ha' Hn']).
    exists w'. split; [done|].
    unfold removeSprite in Hrm. rewrite Hl in Hrm. simpl in Hrm.
    unfold mret, result_ret in Hrm. injection Hrm as <-.
    eapply (registered_change n w _ l (removeElement s l));
      [exact Hr|exact Hl|exact Ha'|by rewrite Hn', Hnext|done|done|].
    intros x. apply removeElement_subset.
  - eexists. split; [reflexivity|].
    eapply (registered_change n w _ l l); [exact Hr|exact Hl| |done| |done|done].
    + clear -Ha. destruct Ha as (H1 & H2 & H3 & H4 & H5).
      open_world w. unfold alive. by unfold_world.
    + intros x. simpl. destruct (decide (x = s)) as [->|Hne].
      * by rewrite fn_lookup_insert.
      * by rewrite fn_lookup_insert_ne.
  - eexists. split; [reflexivity|].
    eapply (registered_change n w _ l l); [exact Hr|exact Hl| |done|done|done|done].
    clear -Ha. destruct Ha as (H1 & H2 & H3 & H4 & H5).
    open_world w. unfold alive. by unfold_world.
  - destruct (render_counter arraySort n w Hc) as (img & w' & Hrun & [Ha' Hn']).
    rewrite Hrun. simpl. exists w'. split; [done|].
    unfold render in Hrun.
    destruct (cachedRender (this w)) as [img0|] eqn:Hcr.
    { injection Hrun as <- <-. done. }
    pose proof Ha as (_ & Hbg & _).
    destruct (renderCore_drawable arraySort w l Hbg Hl) as (l' & Hcore & Hl').
    rewrite Hcore in Hrun. simpl in Hrun.
    unfold mret, result_ret in Hrun. injection Hrun as <- <-.
    eapply (registered_change n w _ l l');
      [exact Hr|exact Hl|exact Ha'|by rewrite Hn', Hnext|done|done|].
    intros x Hx. destruct (decide _); subst l'; [done|].
    by rewrite (proj1 arraySort_contract) in Hx.
  - by apply runCallbacks_registered.
Qed.

Lemma run_registered (ops : list Op) (n : Z) (w : World) :
  registered n w →
  ∃ w' ids, run arraySort ops w = Ok (w', ids) ∧
            registered (n + Z.of_nat (adds ops)) w'.
Proof.
  revert n w. induction ops as [|op ops IH]; intros n w H; simpl.
  - exists w, []. split; [done|]. by rewrite Z.add_0_r.
  - destruct (step_registered op n w H) as (w1 & -> & H1). simpl.
    destruct op as [s|s|s v| | |c];
      try (destruct (IH n w1 H1) as (w2 & ids & -> & H2); simpl;
           by eexists w2, _).
    destruct H1 as [H1 Hid].
    destruct (IH (n + 1) w1 H1) as (w2 & ids & -> & H2). simpl.
    eexists w2, _. split; [done|].
    replace (n + Z.of_nat (S (adds ops))) with (n + 1 + Z.of_nat (adds ops))
      by lia. done.
Qed.

Lemma init_registered (w : World) :
  constructed w → ∃ w', init [] w = Ok w' ∧ registered 0 w'.
Proof.
  intros Hc. destruct (init_constructed w Hc) as (w' & Hi & Hcnt & Hl).
  exists w'. split; [done|]. split; [done|]. split; [done|].
  exists []. split; [done|]. split; intros; set_solver.
Qed.

Lemma zIdLe_antisym (w : World) (n : Z) (l : list SpriteRef) (a b : SpriteRef) :
  registered n w → allSprites (this w) = Some l → a ∈ l → b ∈ l →
  zIdLe (sprites w) a b → zIdLe (sprites w) b a → a = b.
Proof.
  intros (_ & _ & l0 & Hl0 & Hbelow & Hinj) Hl Ha Hb Hab Hba.
  rewrite Hl in Hl0. injection Hl0 as <-.
  apply Hinj; try done.
  destruct Hab as [?|[Hz (i & j & Hi & Hj & ?)]],
           Hba as [?|[Hz' (j' & i' & Hj' & Hi' & ?)]]; try lia.
  rewrite Hi, Hj. rewrite Hi in Hi'. rewrite Hj in Hj'.
  injection Hi' as <-. injection Hj' as <-. f_equal. lia.
Qed.

Lemma registered_sorted_draw (n : Z) (w : World) :
  registered n w →
  flags_and (flags (this w)) NeedsSorting ≠ 0 →
  ∃ l w' l',
    allSprites (this w) = Some l ∧
    renderCore arraySort w = Ok w' ∧
    allSprites (this w') = Some l' ∧
    l' ≡ₚ l ∧
    StronglySorted (zIdLe (sprites w)) l' ∧
    spritesDrawn (trace w') = spritesDrawn (trace w) ++ l' ∧
    (∀ l'', l'' ≡ₚ l → StronglySorted (zIdLe (sprites w)) l'' → l'' = l').
Proof.
  intros Hr Hf. pose proof Hr as (_ & [Ha _] & l & Hl & Hbelow & _).
  pose proof Ha as (_ & [bg Hbg] & _).
  destruct arraySort_contract as [Hperm Hsorted].
  set (l' := arraySort (compareSprites (sprites w)) l).
  assert (l' ≡ₚ l) as Hp by apply Hperm.
  assert (∀ s, s ∈ l → ∃ i, id (sprites w s) = Num i) as Hid.
  { intros s Hs. destruct (Hbelow s Hs) as (i & Hi & _). by exists i. }
  assert (StronglySorted (zIdLe (sprites w)) l') as Hss.
  { eapply StronglySorted_on;
      [|apply Hsorted; by apply compareSprites_consistent].
    intros a b Ha' Hb'. apply compareSprites_zIdLe; apply Hid; by rewrite <- Hp. }
  exists l, (emitAll (coreDraw l')
               (set_this (set_allSprites (Some l') (this w)) w)), l'.
  split; [done|].
  split; [by apply (renderCore_sorted arraySort w bg l Hbg Hl Hf)|].
  split; [by open_world w|]. split; [done|]. split; [done|]. split.
  - clearbody l'. clear. open_world w. unfold_world.
    by rewrite spritesDrawn_app, spritesDrawn_coreDraw.
  - intros l'' Hp'' Hss''.
    apply (StronglySorted_unique_strong (zIdLe (sprites w))); try done.
    + intros a b Ha' Hb'. apply (zIdLe_antisym w n l); try done.
      * by rewrite <- Hp''.
      * by rewrite <- Hp.
    + by rewrite Hp, Hp''.
Qed.

(** X1.  Whatever happens to a scene after [init] (sprites added, even
    twice, or removed, [z] assigned, sorts requested, [render] calls,
    ticks): every sprite of [allSprites] carries an id below the next id,
    and two different sprites of the list never carry the same id. *)
Theorem sprite_ids_stay_distinct (w0 : World) (ops : list Op) :
  constructed w0 →
  ∃ w w' ids l,
    init [] w0 = Ok w ∧
    run arraySort ops w = Ok (w', ids) ∧
    spriteNextId (this w') = Some (Num (Z.of_nat (adds ops))) ∧
    allSprites (this w') = Some l ∧
    (∀ s, s ∈ l →
          ∃ i, id (sprites w' s) = Num i ∧ 0 ≤ i < Z.of_nat (adds ops)) ∧
    (∀ a b, a ∈ l → b ∈ l →
            id (sprites w' a) = id (sprites w' b) → a = b).
Proof.
  intros Hc. destruct (init_registered w0 Hc) as (w & Hi & Hr).
  destruct (run_registered ops 0 w Hr)
    as (w' & ids & Hrun & _ & [_ Hn] & l & Hl & Hbelow & Hinj).
  exists w, w', ids, l. by rewrite Z.add_0_l in *.
Qed.

(** X2.  In a scene reached from [init] by any history, with
    [NeedsSorting] set, the core draw sequence draws every sprite of
    [allSprites] once, in ascending [z] with ties broken by ascending [id];
    that order is the only such arrangement of the list, so it does not
    depend on how the runtime sorts. *)
Theorem flagged_draw_is_sorted
    (w0 w w' : World) (ops : list Op) (ids : list number) :
  constructed w0 →
  init [] w0 = Ok w →
  run arraySort ops w = Ok (w', ids) →
  flags_and (flags (this w')) NeedsSorting ≠ 0 →
  ∃ l w'' l',
    allSprites (this w') = Some l ∧
    renderCore arraySort w' = Ok w'' ∧
    allSprites (this w'') = Some l' ∧
    l' ≡ₚ l ∧
    StronglySorted (zIdLe (sprites w')) l' ∧
    spritesDrawn (trace w'') = spritesDrawn (trace w') ++ l' ∧
    (∀ l'', l'' ≡ₚ l → StronglySorted (zIdLe (sprites w')) l'' → l'' = l').
Proof.
  intros Hc Hi Hrun Hf.
  destruct (init_registered w0 Hc) as (v & Hi' & Hr).
  rewrite Hi in Hi'. injection Hi' as <-.
  destruct (run_registered ops 0 w Hr) as (v' & ids' & Hrun' & Hr').
  rewrite Hrun in Hrun'. injection Hrun' as <- <-.
  by eapply registered_sorted_draw.
Qed.

(** X5.  In one frame through the handlers of [init], every sprite of
    [allSprites] is updated once, in the order of the list at the physics
    step, and then every sprite is drawn once, in the order of the list at
    the render step, which is a rearrangement of the first: no sprite is
    drawn before all sprites have been updated. *)
Theorem frame_updates_then_draws (w : World) (c : nat) (l : list SpriteRef) :
  alive w →
  eventContext (this w) = Some c →
  frameCallbacks (contexts w c) = initCallbacks →
  allSprites (this w) = Some l →
  ∃ w' l' t1 t2,
    tick arraySort c w = Ok w' ∧
    allSprites (this w') = Some l' ∧
    l' ≡ₚ l ∧
    trace w' = trace w ++ t1 ++ t2 ∧
    spritesUpdated t1 = l ∧ spritesDrawn t1 = [] ∧
    spritesDrawn t2 = l' ∧ spritesUpdated t2 = [].
Proof.
  intros Ha Hc Hreg Hl. unfold tick. rewrite Hreg.
  destruct (frame_explicit w c l Ha Hc Hl)
    as (l' & w' & Hrun & Hthis & Htrace & _ & _ & _ & _ & Hl').
  exists w', l', (frameUpdates l),
    (frameDraws l' (diagnosticsCalls (game w) (length l'))).
  destruct (diagnosticsCalls_no_sprite (game w) (length l')) as [Hd Hu].
  split; [done|]. split; [by rewrite Hthis|]. split.
  { destruct (decide _); subst l'; [done|].
    apply (proj1 arraySort_contract). }
  split; [done|]. unfold frameUpdates, frameDraws, coreDraw.
  rewrite !spritesUpdated_app, !spritesDrawn_app, Hd, Hu. simpl.
  rewrite spritesUpdated_SpriteUpdate, spritesDrawn_SpriteUpdate,
    spritesDrawn_SpriteDraw, spritesUpdated_SpriteDraw.
  by rewrite !app_nil_r.
Qed.

End Frame.

Section Behaviour.

Variable arraySort :
  (SpriteRef → SpriteRef → number) → list SpriteRef → list SpriteRef.

Lemma renderCore_Ok (w w' : World) :
  renderCore arraySort w = Ok w' →
  ∃ l l', allSprites (this w) = Some l ∧
          w' = emitAll (coreDraw l')
                 (set_this (set_allSprites (Some l') (this w)) w).
Proof.
  intros Hrun.
  destruct (allSprites (this w)) as [l|] eqn:Hl.
  - destruct (background (this w)) as [bg|] eqn:Hbg.
    + destruct (renderCore_drawable arraySort w l) as (l' & Hcore & _);
        [by rewrite Hbg|done|].
      rewrite Hcore in Hrun. injection Hrun as <-. by exists l, l'.
    + unfold renderCore in Hrun. simpl in Hrun. by rewrite Hbg in Hrun.
  - destruct (renderCore_no_sprites arraySort w Hl) as [what Hthrow].
    by rewrite Hthrow in Hrun.
Qed.

Lemma render_Ok (w w' : World) (img : Image) :
  render arraySort w = Ok (img, w') →
  cachedRender (this w') = Some img ∧ _millis (this w') = _millis (this w) ∧
  flags (this w') = flags (this w) ∧ sprites w' = sprites w.
Proof.
  unfold render. destruct (cachedRender (this w)) as [img0|] eqn:Hcr.
  - by intros [= <- <-].
  - destruct (renderCore arraySort w) as [w1|e] eqn:Hcore; [|done].
    destruct (renderCore_Ok w w1 Hcore) as (l & l' & _ & ->).
    simpl. intros [= <- <-]. by open_world w.
Qed.

Lemma step_not_tick (op : Op) (w w' : World) :
  isTick op = false → step arraySort op w = Ok w' →
  _millis (this w') = _millis (this w) ∧
  (∀ img, cachedRender (this w) = Some img →
          cachedRender (this w') = Some img).
Proof.
  intros Hop Hstep. destruct op as [s|s|s v| | |c]; simpl in *; try done.
  - unfold addSprite in Hstep.
    destruct (allSprites (this w)); [|done]. simpl in Hstep.
    unfold mret, result_ret in Hstep. injection Hstep as <-. by open_world w.
  - unfold removeSprite in Hstep.
    destruct (allSprites (this w)); [|done]. simpl in Hstep.
    unfold mret, result_ret in Hstep. injection Hstep as <-. by open_world w.
  - unfold mret, result_ret in Hstep. injection Hstep as <-. by open_world w.
  - unfold mret, result_ret in Hstep. injection Hstep as <-. by open_world w.
  - destruct (render arraySort w) as [[img w1]|e] eqn:Hr; [|done].
    simpl in Hstep. unfold mret, result_ret in Hstep. injection Hstep as <-.
    destruct (render_Ok w w1 img Hr) as (Hc & Hm & _).
    split; [done|]. intros img0 Hcr.
    rewrite (render_cached arraySort w img0 Hcr) in Hr. by injection Hr as <- <-.
Qed.

Lemma run_not_tick (ops : list Op) (w w' : World) (ids : list number) :
  forallb (λ op, negb (isTick op)) ops = true →
  run arraySort ops w = Ok (w', ids) →
  _millis (this w') = _millis (this w) ∧
  (∀ img, cachedRender (this w) = Some img →
          cachedRender (this w') = Some img).
Proof.
  revert w ids. induction ops as [|op ops IH]; intros w ids Hops; simpl.
  - by intros [= <- _].
  - simpl in Hops. apply andb_true_iff in Hops as [Hop Hops].
    apply negb_true_iff in Hop.
    destruct (step arraySort op w) as [w1|e] eqn:Hstep; [|done]. simpl.
    destruct (run arraySort ops w1) as [[w2 ids2]|e] eqn:Hrun; [|done].
    simpl. intros [= <- _].
    destruct (step_not_tick op w w1 Hop Hstep) as [Hm Hc].
    destruct (IH w1 ids2 Hops Hrun) as [Hm' Hc'].
    split; [by rewrite Hm', Hm|]. intros img Hcr. by apply Hc', Hc.
Qed.

(** X3.  One frame through the handlers of [init] advances [millis()]
    by the time that the event context gives for the frame, once; and no
    other operation on the scene ([addSprite], removals, [z] assignments,
    sort requests, [render]) changes it. *)
Theorem tick_advances_millis (w : World) (c : nat) :
  alive w →
  eventContext (this w) = Some c →
  frameCallbacks (contexts w c) = initCallbacks →
  (∃ w', tick arraySort c w = Ok w' ∧
         millis w' = millis w + deltaTimeMillis (contexts w c) ∧
         data w' = data w) ∧
  (∀ ops v v' ids,
     forallb (λ op, negb (isTick op)) ops = true →
     run arraySort ops v = Ok (v', ids) → millis v' = millis v).
Proof.
  intros Ha Hc Hreg. split.
  - pose proof Ha as (_ & _ & _ & _ & [l Hl]).
    destruct (frame_explicit arraySort w c l Ha Hc Hl)
      as (l' & w' & Hrun & Hthis & _).
    exists w'. unfold tick, millis, data. rewrite Hreg, Hthis.
    split; [done|]. by open_world w.
  - intros ops v v' ids Hops Hrun.
    by destruct (run_not_tick ops v v' ids Hops Hrun).
Qed.

(** X4.  A sort request is served by one frame: after a frame through
    the handlers of [init], [flags] is 0 and no image is cached, and the
    next frame leaves [allSprites] in the order in which it found it. *)
Theorem sort_request_served_once (w : World) (c : nat) :
  alive w →
  eventContext (this w) = Some c →
  frameCallbacks (contexts w c) = initCallbacks →
  ∃ w1 w2,
    tick arraySort c w = Ok w1 ∧
    flags (this w1) = Some 0 ∧
    cachedRender (this w1) = None ∧
    tick arraySort c w1 = Ok w2 ∧
    allSprites (this w2) = allSprites (this w1).
Proof.
  intros Ha Hc Hreg. pose proof Ha as (_ & _ & _ & _ & [l Hl]).
  destruct (frame_explicit arraySort w c l Ha Hc Hl)
    as (l1 & w1 & Hrun1 & Hthis1 & _ & Hctx1 & _).
  assert (alive w1 ∧ eventContext (this w1) = Some c ∧
          allSprites (this w1) = Some l1 ∧ flags (this w1) = Some 0 ∧
          cachedRender (this w1) = None) as (Ha1 & Hc1 & Hl1 & Hf1 & Hcr1).
  { unfold alive. rewrite Hthis1. clear -Ha Hc.
    destruct Ha as (H1 & H2 & H3 & H4 & H5).
    open_world w. unfold_world. repeat split; by eauto. }
  destruct (frame_explicit arraySort w1 c l1 Ha1 Hc1 Hl1)
    as (l2 & w2 & Hrun2 & Hthis2 & _ & _ & _ & _ & _ & Hl2).
  rewrite Hf1 in Hl2. simpl in Hl2.
  exists w1, w2. unfold tick. rewrite Hctx1, Hreg.
  split; [done|]. split; [done|]. split; [done|]. split; [done|].
  rewrite Hthis2, Hl1. simpl. by rewrite Hl2.
Qed.

(** X6.  Only the render handler of a frame empties the cache: once
    [render] has returned an image, it returns that very image again after
    any sequence of [addSprite] calls, removals, [z] assignments, sort
    requests and [render] calls, as long as no tick comes in between; the
    image does not show what was changed since. *)
Theorem cached_image_survives_changes
    (w w1 w2 : World) (img : Image) (ops : list Op) (ids : list number) :
  render arraySort w = Ok (img, w1) →
  forallb (λ op, negb (isTick op)) ops = true →
  run arraySort ops w1 = Ok (w2, ids) →
  render arraySort w2 = Ok (img, w2).
Proof.
  intros Hr Hops Hrun. apply render_cached.
  destruct (render_Ok w w1 img Hr) as (Hc & _).
  destruct (run_not_tick ops w1 w2 ids Hops Hrun) as [_ Hkeep].
  by apply Hkeep.
Qed.

(** X7.  [destroy] does not deregister the handlers of the scene: the
    registry of the event context is as before, and the next tick through
    the handlers of [init] raises a [TypeError] in the first of them, on
    the event context that [destroy] took away.  [init] cannot bring the
    scene back: it raises the same error. *)
Theorem tick_after_destroy_throws
    (inits : list (World → result World)) (w : World) (c : nat) :
  contexts (destroy w) = contexts w ∧
  (frameCallbacks (contexts w c) = initCallbacks →
   tick arraySort c (destroy w) = Throw (TypeError "eventContext")) ∧
  init inits (destroy w) = Throw (TypeError "eventContext").
Proof.
  split; [reflexivity|]. split.
  - intros Hreg. unfold tick. simpl. by rewrite Hreg.
  - by apply init_no_context.
Qed.

(** X8.  [destroy] leaves the cached image: after [destroy], [render]
    still returns the image that was cached, and raises a [TypeError] on
    the background if none was.  A second [destroy] changes nothing. *)
Theorem render_after_destroy (w : World) :
  (∀ img, cachedRender (this w) = Some img →
          render arraySort (destroy w) = Ok (img, destroy w)) ∧
  (cachedRender (this w) = None →
   render arraySort (destroy w) = Throw (TypeError "background")) ∧
  destroy (destroy w) = destroy w.
Proof.
  split; [|split].
  - intros img Hcr. by apply render_cached.
  - intros Hcr. unfold render. simpl. by rewrite Hcr.
  - reflexivity.
Qed.

(** X9.  [addSprite] does not request a sort: it leaves [flags] and the
    [z] of every sprite as they are, so that, with [NeedsSorting] clear,
    the next draw has the new sprite last (on top), whatever its [z]. *)
Theorem addSprite_draws_last
    (w : World) (l : list SpriteRef) (sprite : SpriteRef) :
  is_Some (background (this w)) →
  allSprites (this w) = Some l →
  flags_and (flags (this w)) NeedsSorting = 0 →
  ∃ w1 w2,
    addSprite sprite w = Ok w1 ∧
    flags (this w1) = flags (this w) ∧
    (∀ s, z (sprites w1 s) = z (sprites w s)) ∧
    renderCore arraySort w1 = Ok w2 ∧
    allSprites (this w2) = Some (l ++ [sprite]) ∧
    spritesDrawn (trace w2) = spritesDrawn (trace w) ++ l ++ [sprite].
Proof.
  intros [bg Hbg] Hl Hf. unfold addSprite. rewrite Hl. simpl.
  eexists _, _. split; [reflexivity|]. split; [by open_world w|]. split.
  { intros s. simpl. destruct (decide (s = sprite)) as [->|Hne].
    - by rewrite fn_lookup_insert.
    - by rewrite fn_lookup_insert_ne. }
  split.
  { eapply (renderCore_unsorted arraySort _ bg (l ++ [sprite])).
    - clear -Hbg. by open_world w.
    - clear. by open_world w.
    - clear -Hf. by open_world w. }
  clear. open_world w. unfold_world.
  by rewrite spritesDrawn_app, spritesDrawn_coreDraw.
Qed.

Lemma forEach_addSprite (ss l : list SpriteRef) (n : Z) (w : World) :
  counter n w → allSprites (this w) = Some l →
  ∃ w', forEach (map addSprite ss) w = Ok w' ∧
        counter (n + Z.of_nat (length ss)) w' ∧
        allSprites (this w') = Some (l ++ ss) ∧
        contexts w' = contexts w ∧ trace w' = trace w.
Proof.
  revert l n w. induction ss as [|s ss IH]; intros l n w Hc Hl; simpl.
  - exists w. rewrite Z.add_0_r, app_nil_r. done.
  - destruct (addSprite_counter s n w Hc) as (w1 & Hadd & Hc1 & _).
    rewrite Hadd. simpl.
    assert (allSprites (this w1) = Some (l ++ [s]) ∧
            contexts w1 = contexts w ∧ trace w1 = trace w) as (Hl1 & Hx & Ht).
    { clear -Hadd Hl. unfold addSprite in Hadd. rewrite Hl in Hadd.
      simpl in Hadd. unfold mret, result_ret in Hadd.
      injection Hadd as <-. done. }
    destruct (IH (l ++ [s]) (n + 1) w1 Hc1 Hl1) as (w' & -> & Hc' & Hl' & Hx' & Ht').
    exists w'. split; [done|].
    replace (n + Z.of_nat (S (length ss)))
      with (n + 1 + Z.of_nat (length ss)) by lia.
    rewrite Hl', Hx', Ht', Hx, Ht, <- app_assoc. done.
Qed.

(** X10.  The initializers run when the sprite list, the id counter and
    the handlers of [init] are in place: initializers that add the sprites
    [ss] succeed, [allSprites] is [ss] after [init], the next id is their
    number, and a second [init] adds nothing. *)
Theorem init_runs_adding_initializers (w0 : World) (ss : list SpriteRef) :
  constructed w0 →
  ∃ w, init (map addSprite ss) w0 = Ok w ∧
       allSprites (this w) = Some ss ∧
       spriteNextId (this w) = Some (Num (Z.of_nat (length ss))) ∧
       init (map addSprite ss) w = Ok w.
Proof.
  intros Hcons. pose proof Hcons as ([c Hc] & Hbg & Hpe & Hcam & Hs).
  destruct (init_registers (map addSprite ss) w0 c Hs Hc)
    as (w1 & Hi & Hthis & _).
  assert (counter 0 w1 ∧ allSprites (this w1) = Some []) as [Hcnt Hl].
  { unfold counter, alive. rewrite Hthis. clear -Hc Hbg Hpe Hcam.
    open_world w0. unfold_world. auto 10. }
  destruct (forEach_addSprite ss [] 0 w1 Hcnt Hl)
    as (w & Hrun & [_ Hn] & Hl' & _).
  exists w. rewrite Hi. split; [done|]. split; [done|]. split; [done|].
  apply init_initialised. by rewrite Hl'.
Qed.

End Behaviour.

(** ** The theorems above on the example game *)

Lemma exampleMarked_run :
  run insertionSort [OpAddSprite 1%nat; OpAddSprite 2%nat; OpNeedsSorting]
    exampleInit = Ok (exampleMarked, [Num 0; Num 1]).
Proof. vm_compute; reflexivity. Qed.

Lemma exampleMarked_alive : alive exampleMarked.
Proof. unfold alive; vm_compute. repeat split; by eexists. Qed.

Lemma exampleMarked_registry :
  frameCallbacks (contexts exampleMarked 0%nat) = initCallbacks.
Proof. vm_compute; reflexivity. Qed.

Lemma sprite_ids_stay_distinct_witness :
  SortContract insertionSort ∧
  constructed exampleWorld ∧
  ∃ w w' ids l,
    init [] exampleWorld = Ok w ∧
    run insertionSort exampleOps w = Ok (w', ids) ∧
    spriteNextId (this w') = Some (Num (Z.of_nat (adds exampleOps))) ∧
    allSprites (this w') = Some l ∧
    (∀ s, s ∈ l →
          ∃ i, id (sprites w' s) = Num i ∧
               0 ≤ i < Z.of_nat (adds exampleOps)) ∧
    (∀ a b, a ∈ l → b ∈ l →
            id (sprites w' a) = id (sprites w' b) → a = b).
Proof.
  split; [exact insertionSort_contract|].
  split; [exact exampleWorld_constructed|].
  exact (sprite_ids_stay_distinct insertionSort insertionSort_contract
           exampleWorld exampleOps exampleWorld_constructed).
Defined.

Lemma flagged_draw_is_sorted_witness :
  SortContract insertionSort ∧
  constructed exampleWorld ∧
  init [] exampleWorld = Ok exampleInit ∧
  run insertionSort [OpAddSprite 1%nat; OpAddSprite 2%nat; OpNeedsSorting]
    exampleInit = Ok (exampleMarked, [Num 0; Num 1]) ∧
  flags_and (flags (this exampleMarked)) NeedsSorting ≠ 0 ∧
  ∃ l w'' l',
    allSprites (this exampleMarked) = Some l ∧
    renderCore insertionSort exampleMarked = Ok w'' ∧
    allSprites (this w'') = Some l' ∧
    l' ≡ₚ l ∧
    StronglySorted (zIdLe (sprites exampleMarked)) l' ∧
    spritesDrawn (trace w'') = spritesDrawn (trace exampleMarked) ++ l' ∧
    (∀ l'', l'' ≡ₚ l →
            StronglySorted (zIdLe (sprites exampleMarked)) l'' → l'' = l').
Proof.
  assert (flags_and (flags (this exampleMarked)) NeedsSorting ≠ 0) as Hf
    by (vm_compute; discriminate).
  split; [exact insertionSort_contract|].
  split; [exact exampleWorld_constructed|].
  split; [exact exampleInit_init|].
  split; [exact exampleMarked_run|].
  split; [exact Hf|].
  exact (flagged_draw_is_sorted insertionSort insertionSort_contract
           exampleWorld exampleInit exampleMarked _ _
           exampleWorld_constructed exampleInit_init exampleMarked_run Hf).
Defined.

Lemma frame_updates_then_draws_witness :
  SortContract insertionSort ∧
  alive exampleMarked ∧
  eventContext (this exampleMarked) = Some 0%nat ∧
  frameCallbacks (contexts exampleMarked 0%nat) = initCallbacks ∧
  allSprites (this exampleMarked) = Some [1%nat; 2%nat] ∧
  ∃ w' l' t1 t2,
    tick insertionSort 0%nat exampleMarked = Ok w' ∧
    allSprites (this w') = Some l' ∧
    l' ≡ₚ [1%nat; 2%nat] ∧
    trace w' = trace exampleMarked ++ t1 ++ t2 ∧
    spritesUpdated t1 = [1%nat; 2%nat] ∧ spritesDrawn t1 = [] ∧
    spritesDrawn t2 = l' ∧ spritesUpdated t2 = [].
Proof.
  assert (eventContext (this exampleMarked) = Some 0%nat) as Hc
    by (vm_compute; reflexivity).
  assert (allSprites (this exampleMarked) = Some [1%nat; 2%nat]) as Hl
    by (vm_compute; reflexivity).
  split; [exact insertionSort_contract|].
  split; [exact exampleMarked_alive|]. split; [exact Hc|].
  split; [exact exampleMarked_registry|]. split; [exact Hl|].
  exact (frame_updates_then_draws insertionSort insertionSort_contract
           exampleMarked 0%nat [1%nat; 2%nat]
           exampleMarked_alive Hc exampleMarked_registry Hl).
Defined.

Lemma tick_advances_millis_witness :
  alive exampleMarked ∧
  eventContext (this exampleMarked) = Some 0%nat ∧
  frameCallbacks (contexts exampleMarked 0%nat) = initCallbacks ∧
  ∃ w', tick insertionSort 0%nat exampleMarked = Ok w' ∧
        millis w' =
          millis exampleMarked + deltaTimeMillis (contexts exampleMarked 0%nat) ∧
        data w' = data exampleMarked.
Proof.
  assert (eventContext (this exampleMarked) = Some 0%nat) as Hc
    by (vm_compute; reflexivity).
  split; [exact exampleMarked_alive|]. split; [exact Hc|].
  split; [exact exampleMarked_registry|].
  exact (proj1 (tick_advances_millis insertionSort exampleMarked 0%nat
                  exampleMarked_alive Hc exampleMarked_registry)).
Defined.

Lemma sort_request_served_once_witness :
  alive exampleMarked ∧
  eventContext (this exampleMarked) = Some 0%nat ∧
  frameCallbacks (contexts exampleMarked 0%nat) = initCallbacks ∧
  ∃ w1 w2,
    tick insertionSort 0%nat exampleMarked = Ok w1 ∧
    flags (this w1) = Some 0 ∧
    cachedRender (this w1) = None ∧
    tick insertionSort 0%nat w1 = Ok w2 ∧
    allSprites (this w2) = allSprites (this w1).
Proof.
  assert (eventContext (this exampleMarked) = Some 0%nat) as Hc
    by (vm_compute; reflexivity).
  split; [exact exampleMarked_alive|]. split; [exact Hc|].
  split; [exact exampleMarked_registry|].
  exact (sort_request_served_once insertionSort exampleMarked 0%nat
           exampleMarked_alive Hc exampleMarked_registry).
Defined.

Lemma cached_image_survives_changes_witness :
  ∃ img w1 w2 ids,
    render insertionSort exampleInit = Ok (img, w1) ∧
    forallb (λ op, negb (isTick op)) exampleChanges = true ∧
    run insertionSort exampleChanges w1 = Ok (w2, ids) ∧
    render insertionSort w2 = Ok (img, w2).
Proof.
  eexists _, _, _, _.
  split; [vm_compute; reflexivity|]. split; [reflexivity|].
  split; [vm_compute; reflexivity|].
  eapply (cached_image_survives_changes insertionSort exampleInit _ _ _
            exampleChanges); [vm_compute; reflexivity|reflexivity|].
  vm_compute; reflexivity.
Defined.

Lemma addSprite_draws_last_witness :
  is_Some (background (this exampleRendered)) ∧
  allSprites (this exampleRendered) = Some [1%nat; 2%nat] ∧
  flags_and (flags (this exampleRendered)) NeedsSorting = 0 ∧
  ∃ w1 w2,
    addSprite 3%nat exampleRendered = Ok w1 ∧
    flags (this w1) = flags (this exampleRendered) ∧
    (∀ s, z (sprites w1 s) = z (sprites exampleRendered s)) ∧
    renderCore insertionSort w1 = Ok w2 ∧
    allSprites (this w2) = Some ([1%nat; 2%nat] ++ [3%nat]) ∧
    spritesDrawn (trace w2) =
      spritesDrawn (trace exampleRendered) ++ [1%nat; 2%nat] ++ [3%nat].
Proof.
  assert (is_Some (background (this exampleRendered))) as Hbg
    by (vm_compute; by eexists).
  assert (allSprites (this exampleRendered) = Some [1%nat; 2%nat]) as Hl
    by (vm_compute; reflexivity).
  assert (flags_and (flags (this exampleRendered)) NeedsSorting = 0) as Hf
    by (vm_compute; reflexivity).
  split; [exact Hbg|]. split; [exact Hl|]. split; [exact Hf|].
  exact (addSprite_draws_last insertionSort exampleRendered
           [1%nat; 2%nat] 3%nat Hbg Hl Hf).
Defined.

Lemma init_runs_adding_initializers_witness :
  constructed exampleWorld ∧
  ∃ w, init (map addSprite [1%nat; 2%nat]) exampleWorld = Ok w ∧
       allSprites (this w) = Some [1%nat; 2%nat] ∧
       spriteNextId (this w)
         = Some (Num (Z.of_nat (length [1%nat; 2%nat]))) ∧
       init (map addSprite [1%nat; 2%nat]) w = Ok w.
Proof.
  split; [exact exampleWorld_constructed|].
  exact (init_runs_adding_initializers exampleWorld [1%nat; 2%nat]
           exampleWorld_constructed).
Defined.

End scene_more.

(** * More facts about the serial wrapper *)

Module serial_more.
Import serial serial_facts.

(** ** Writes *)

Lemma writeString_concat (t1 t2 : string) (st : State) :
  writeString t2 (writeString t1 st) = writeString (t1 +:+ t2) st.
Proof.
  destruct (device st) as [ser|] eqn:Hd.
  - by apply (writeString_twice t1 t2 st ser).
  - unfold writeString, writeBuffer. by rewrite !Hd.
Qed.

(** X11.  Consecutive writes concatenate, whatever [NEW_LINE] holds and
    whether there is a device or not: [writeLine] is one write of the text
    followed by [NEW_LINE], [writeValue] one write of the name and a colon
    (left out for the empty name), the decimal rendering of the value and
    [NEW_LINE]. *)
Theorem writes_concatenate (st : State) (t1 t2 text name : string) (v : Z) :
  writeString t2 (writeString t1 st) = writeString (t1 +:+ t2) st ∧
  writeLine text st = writeString (text +:+ NEW_LINE st) st ∧
  writeValue name v st =
    writeString (valuePrefix name +:+ toString v +:+ NEW_LINE st) st.
Proof.
  split; [apply writeString_concat|]. split.
  - unfold writeLine. by rewrite writeString_NEW_LINE, writeString_concat.
  - unfold writeValue, writeNumber, valuePrefix.
    destruct (String.eqb name EmptyString); simpl.
    + by rewrite writeString_NEW_LINE, writeString_concat.
    + rewrite !writeString_NEW_LINE, !writeString_concat.
      by rewrite !string_app_assoc.
Qed.

(** X12.  [logListener] writes one line: the tag of the priority
    ([dbg> ], [err> ] or [wrn> ], nothing for the other priorities), the
    text and [NEW_LINE]. *)
Theorem logListener_line
    (priority : ConsolePriority) (text : string) (st : State) :
  logListener priority text st =
    writeString (logPrefix priority +:+ text +:+ NEW_LINE st) st.
Proof.
  unfold logListener, writeLine, logPrefix.
  destruct priority;
    rewrite ?writeString_NEW_LINE, ?writeString_concat;
    by rewrite ?string_app_assoc.
Qed.

(** ** Reads *)

Lemma splitAtDelimiter_Some (d : byte) (l pre post : list byte) :
  splitAtDelimiter d l = Some (pre, post) → l = pre ++ d :: post ∧ d ∉ pre.
Proof.
  revert pre post. induction l as [|b l IH]; intros pre post; simpl; [done|].
  destruct (Byte.eqb b d) eqn:Hb.
  - intros [= <- <-]. apply byte_dec_bl in Hb as ->.
    split; [done|]. apply not_elem_of_nil.
  - destruct (splitAtDelimiter d l) as [[pre' post']|]; [|done].
    intros [= <- <-]. destruct (IH pre' post' eq_refl) as [-> Hnot].
    split; [done|]. apply not_elem_of_cons. split; [|done].
    intros <-. by rewrite (byte_dec_lb eq_refl) in Hb.
Qed.

Lemma splitAtDelimiter_first (d : byte) (pre post : list byte) :
  d ∉ pre → splitAtDelimiter d (pre ++ d :: post) = Some (pre, post).
Proof.
  induction pre as [|b pre IH]; intros Hnot; simpl.
  - by rewrite (byte_dec_lb eq_refl).
  - apply not_elem_of_cons in Hnot as [Hne Hnot].
    destruct (Byte.eqb b d) eqn:Hb.
    + apply byte_dec_bl in Hb. congruence.
    + by rewrite (IH Hnot).
Qed.

Lemma round_sentBy (st : State) : sentBy (round st) = sentBy st.
Proof.
  unfold round, poll, readBuffer, sentBy, pause.
  destruct (device st) as [ser|] eqn:Hd; simpl.
  - unfold Device_readBuffer. destruct ser as [inc ? ? ? ? ? ?]; simpl.
    destruct inc as [|c inc]; simpl; by destruct (oversleep st).
  - destruct (oversleep st); simpl; by rewrite Hd.
Qed.

(** What a return of the loop tells. *)
Lemma loop_result (fuel : nat) (delimiter : Delimiters) (timeOut : option Z)
    (start : Z) (st st' : State) (s : string) :
  readUntil_loop fuel delimiter timeOut start st = Some (s, st') →
  sentBy st' = sentBy st ∧
  ((∃ pre post, splitAtDelimiter delimiter (stream st) = Some (pre, post) ∧
                s = Buffer_toString pre ∧ stream st' = post) ∨
   (∃ T, timeOut = Some T ∧ s = EmptyString ∧ stream st' = stream st ∧
         T ≤ millis st' - start)).
Proof.
  revert st. induction fuel as [|fuel IH]; intros st; [done|].
  destruct (splitAtDelimiter delimiter (pending st)) as [[pre post]|] eqn:Hp.
  - rewrite (loop_found _ _ _ _ _ pre post Hp). intros [= <- <-].
    split; [unfold sentBy; reflexivity|]. left.
    exists pre, (post ++ match device st with
                         | Some ser => concat (incoming ser)
                         | None => []
                         end).
    split; [by apply splitAtDelimiter_app_Some|]. by split.
  - rewrite (loop_not_found _ _ _ _ _ Hp).
    destruct timeOut as [T|].
    + destruct (Z.ltb_spec (millis (round st) - start) T) as [Hlt|Hge].
      * intros Hrun. destruct (IH _ Hrun) as [Hsent Hres].
        rewrite round_sentBy, round_stream in *. done.
      * intros [= <- <-]. split; [apply round_sentBy|]. right.
        exists T. by rewrite round_stream.
    + intros Hrun. destruct (IH _ Hrun) as [Hsent Hres].
      rewrite round_sentBy, round_stream in *. done.
Qed.

(** X13.  A return of [readUntil] is one of two things.  Either the
    delimiter was found: the text is what came before its first occurrence
    in what the decoder held and the device delivers, and exactly the bytes
    after that delimiter are left, none lost.  Or the timeout has elapsed:
    the text is empty and every byte read is kept for the next call.  The
    empty text does not tell the two apart.  Nothing is sent. *)
Theorem readUntil_consumes_one_segment
    (fuel : nat) (delimiter : byte) (timeOut : option Z)
    (st st' : State) (s : string) :
  readUntil fuel delimiter timeOut st = Some (s, st') →
  sentBy st' = sentBy st ∧
  ((∃ pre post, stream st = pre ++ (delimiter :: post) ∧ (delimiter ∉ pre) ∧
                s = Buffer_toString pre ∧ stream st' = post) ∨
   (∃ T, timeOut = Some T ∧ s = EmptyString ∧ stream st' = stream st ∧
         T ≤ millis st' - millis st)).
Proof.
  rewrite readUntil_loop_decoder. intros Hrun.
  destruct (decoder_pending st) as (_ & Hs & _ & Hd & _).
  destruct (loop_result _ _ _ _ _ _ _ Hrun) as [Hsent Hres].
  split; [rewrite Hsent; unfold sentBy; by rewrite Hd|].
  destruct Hres as [(pre & post & Hsplit & -> & Hst')|Htimeout].
  - left. exists pre, post. rewrite Hs in Hsplit.
    destruct (splitAtDelimiter_Some _ _ _ _ Hsplit) as [Heq Hnot]. done.
  - right. by rewrite Hs in Htimeout.
Qed.

Lemma loop_eventually_stream (delimiter : byte) (st : State)
    (pre post : list byte) :
  stream st = pre ++ (delimiter :: post) → delimiter ∉ pre →
  ∃ fuel st', readUntil fuel delimiter None st =
                Some (Buffer_toString pre, st') ∧
              stream st' = post.
Proof.
  intros Hst Hnot.
  pose proof (splitAtDelimiter_first delimiter pre post Hnot) as Hsplit.
  rewrite <- Hst in Hsplit.
  destruct (decoder_pending st) as (_ & Hs & _).
  rewrite <- Hs in Hsplit.
  destruct (loop_eventually delimiter (millis st) _ pre post Hsplit)
    as (fuel & st' & Hrun).
  exists fuel, st'. rewrite readUntil_loop_decoder. split; [done|].
  destruct (loop_result _ _ _ _ _ _ _ Hrun)
    as [_ [(pre' & post' & Hsplit' & _ & Hst')|(T & HT & _)]]; [|done].
  rewrite Hsplit in Hsplit'. by injection Hsplit' as _ <-.
Qed.

(** X14.  Without a timeout, two calls of [readUntil] return two
    consecutive segments of the input, in order, and leave what follows the
    second delimiter; how the device cuts the input into buffers makes no
    difference. *)
Theorem readUntil_twice
    (delimiter : byte) (st : State) (l1 l2 rest : list byte) :
  stream st = l1 ++ (delimiter :: l2 ++ (delimiter :: rest)) →
  delimiter ∉ l1 → delimiter ∉ l2 →
  ∃ fuel1 fuel2 st1 st2,
    readUntil fuel1 delimiter None st = Some (Buffer_toString l1, st1) ∧
    readUntil fuel2 delimiter None st1 = Some (Buffer_toString l2, st2) ∧
    stream st2 = rest.
Proof.
  intros Hst H1 H2.
  destruct (loop_eventually_stream delimiter st l1 _ Hst H1)
    as (fuel1 & st1 & Hrun1 & Hst1).
  destruct (loop_eventually_stream delimiter st1 l2 rest Hst1 H2)
    as (fuel2 & st2 & Hrun2 & Hst2).
  by exists fuel1, fuel2, st1, st2.
Qed.

(** X15.  A line written by [writeLine] and read back by [readLine]
    (the delimiter being the line feed) comes back with the carriage
    return of [NEW_LINE] at its end: [readLine] cuts at the line feed
    only. *)
Theorem readLine_of_writeLine
    (wr rd : State) (ser : Device) (text : string) :
  device wr = Some ser →
  NEW_LINE wr = CRLF →
  LF ∉ list_byte_of_string text →
  sentBy (writeLine text wr) = Some (sent ser ++ stream rd) →
  ∃ fuel rd',
    readLine LF fuel rd
      = Some (text +:+ String (ascii_of_nat 13) EmptyString, rd') ∧
    stream rd' = [].
Proof.
  intros Hd Hnl Hnot Hsent.
  assert (stream rd = (list_byte_of_string text ++ [CR]) ++ LF :: []) as Hst.
  { unfold writeLine in Hsent.
    rewrite writeString_NEW_LINE, Hnl, writeString_concat in Hsent.
    rewrite (writeString_device _ wr ser Hd) in Hsent.
    unfold sentBy, createBufferFromUTF8 in Hsent. simpl in Hsent.
    injection Hsent as Hsent. apply app_inv_head in Hsent.
    rewrite <- Hsent, list_byte_of_string_app, <- app_assoc. reflexivity. }
  destruct (loop_eventually_stream LF rd _ _ Hst) as (fuel & rd' & Hrun & Hst').
  { apply not_elem_of_app. split; [done|].
    apply not_elem_of_cons. split; [discriminate|apply not_elem_of_nil]. }
  exists fuel, rd'. split; [|done]. unfold readLine. rewrite Hrun.
  do 2 f_equal. unfold Buffer_toString.
  change [CR] with (list_byte_of_string (String (ascii_of_nat 13) EmptyString)).
  by rewrite <- list_byte_of_string_app, string_of_list_byte_of_string.
Qed.




(** ** The theorems above on examples *)

Ltac not_in_bytes :=
  repeat (apply not_elem_of_cons; split; [discriminate|]);
  apply not_elem_of_nil.

Lemma readUntil_consumes_one_segment_witness :
  ∃ s st',
    readUntil 5 LF None exampleTwoLines = Some (s, st') ∧
    sentBy st' = sentBy exampleTwoLines ∧
    ((∃ pre post, stream exampleTwoLines = pre ++ (LF :: post) ∧
                  (LF ∉ pre) ∧
                  s = Buffer_toString pre ∧ stream st' = post) ∨
     (∃ T, None = Some T ∧ s = EmptyString ∧
           stream st' = stream exampleTwoLines ∧
           T ≤ millis st' - millis exampleTwoLines)).
Proof.
  eexists _, _. split; [vm_compute; reflexivity|].
  apply (readUntil_consumes_one_segment 5 LF None exampleTwoLines).
  vm_compute; reflexivity.
Defined.

Lemma readUntil_twice_witness :
  stream exampleTwoLines = [x61; x62] ++ (LF :: [x63] ++ (LF :: [x64])) ∧
  (LF ∉ [x61; x62]) ∧ (LF ∉ [x63]) ∧
  ∃ fuel1 fuel2 st1 st2,
    readUntil fuel1 LF None exampleTwoLines
      = Some (Buffer_toString [x61; x62], st1) ∧
    readUntil fuel2 LF None st1 = Some (Buffer_toString [x63], st2) ∧
    stream st2 = [x64].
Proof.
  assert (LF ∉ [x61; x62]) as H1 by not_in_bytes.
  assert (LF ∉ [x63]) as H2 by not_in_bytes.
  split; [reflexivity|]. split; [exact H1|]. split; [exact H2|].
  exact (readUntil_twice LF exampleTwoLines [x61; x62] [x63] [x64]
           eq_refl H1 H2).
Defined.

Lemma readLine_of_writeLine_witness :
  device exampleIdle = Some (exampleDevice []) ∧
  NEW_LINE exampleIdle = CRLF ∧
  (LF ∉ list_byte_of_string "hi") ∧
  sentBy (writeLine "hi" exampleIdle)
    = Some (sent (exampleDevice []) ++ stream exampleEcho) ∧
  ∃ fuel rd',
    readLine LF fuel exampleEcho
      = Some ("hi" +:+ String (ascii_of_nat 13) EmptyString, rd') ∧
    stream rd' = [].
Proof.
  assert (LF ∉ list_byte_of_string "hi") as Hnot.
  { change (list_byte_of_string "hi") with [x68; x69]. not_in_bytes. }
  assert (sentBy (writeLine "hi" exampleIdle)
          = Some (sent (exampleDevice []) ++ stream exampleEcho)) as Hsent
    by (vm_compute; reflexivity).
  split; [reflexivity|]. split; [reflexivity|]. split; [exact Hnot|].
  split; [exact Hsent|].
  exact (readLine_of_writeLine exampleIdle exampleEcho (exampleDevice [])
           "hi" eq_refl eq_refl Hnot Hsent).
Defined.


End serial_more.
